(** * slsh: the command processing pipeline and the history manager

    A shallow embedding of the Go sources of slsh (package [shell]:
    parser.go, history.go, shell.go; package [commands]: registry.go,
    run.go; package [slurm]: client.go, types.go) and the properties of
    its specification that were checked against it.

    Modelling conventions.
    - A Go [string] is a [string] of Rocq: a sequence of one-byte
      characters.  A [for _, char := range s] loop is a left-to-right
      scan of these characters; this is what Go does on ASCII text, and
      on any valid UTF-8 text for the loops below that only single out
      ASCII characters.
    - [unicode.IsDigit] is modelled on its Latin-1 branch, ['0' <= r <= '9'];
      [strings.TrimSpace] trims the ASCII white space characters.
    - A Go [map[string]string] is a [gmap string string]; where the code
      ranges over a map, the model takes the order of enumeration as an
      argument, since Go leaves it unspecified.
    - Go's [int] and [int64] are [Z] with the 64-bit wrap-around written
      out.
    - [error] results are sums: [Ok] or [Err] with an error value that
      records which [fmt.Errorf] produced it. *)

From Stdlib Require Import Ascii String ZArith Lia DecimalString DecimalZ DecimalPos DecimalN.
From stdpp Require Import base option list gmap strings.


(* ===================================================================== *)
(** * Part I: the embedding                                               *)
(* ===================================================================== *)

(** ** Results and errors *)

Inductive result (E A : Type) : Type :=
| Ok (a : A)
| Err (e : E).
Arguments Ok {E A} a.
Arguments Err {E A} e.

Definition is_ok {E A} (r : result E A) : bool :=
  match r with Ok _ => true | Err _ => false end.

(** ["unclosed quote"] *)
Inductive tokenize_error := UnclosedQuote.

(** The errors of [ParseCommand]: ["empty command"],
    ["failed to tokenize command: ..."], ["no tokens found"]. *)
Inductive parse_error :=
| EmptyCommand
| TokenizeError (e : tokenize_error)
| NoTokens.

(** ** Characters and strings *)

Definition backslash : ascii := "\"%char.
Definition dquote : ascii := "034"%char.
Definition squote : ascii := "'"%char.
Definition space : ascii := " "%char.
Definition tab : ascii := "009"%char.
Definition newline : ascii := "010"%char.
Definition vtab : ascii := "011"%char.
Definition formfeed : ascii := "012"%char.
Definition creturn : ascii := "013"%char.
Definition colon : ascii := ":"%char.
Definition pipe : ascii := "|"%char.

(** [strings.Builder.WriteRune]: append one character. *)
Definition WriteRune (b : string) (c : ascii) : string :=
  b +:+ String c EmptyString.

(** [strings.HasPrefix(s, prefix)]. *)
Definition HasPrefix (s p : string) : bool := String.prefix p s.

(** White space as [strings.TrimSpace] sees it on ASCII text. *)
Definition isSpace (c : ascii) : bool :=
  Ascii.eqb c tab || Ascii.eqb c newline || Ascii.eqb c vtab
  || Ascii.eqb c formfeed || Ascii.eqb c creturn || Ascii.eqb c space.

Definition is_empty (s : string) : bool :=
  match s with EmptyString => true | String _ _ => false end.

Fixpoint TrimLeft (s : string) : string :=
  match s with
  | EmptyString => EmptyString
  | String c s' => if isSpace c then TrimLeft s' else s
  end.

Fixpoint TrimRight (s : string) : string :=
  match s with
  | EmptyString => EmptyString
  | String c s' =>
      let t := TrimRight s' in
      if isSpace c && is_empty t then EmptyString else String c t
  end.

(** [strings.TrimSpace]. *)
Definition TrimSpace (s : string) : string := TrimRight (TrimLeft s).

(** [strings.Join(elems, sep)]. *)
Fixpoint Join (elems : list string) (sep : string) : string :=
  match elems with
  | [] => EmptyString
  | [e] => e
  | e :: rest => e +:+ sep +:+ Join rest sep
  end.

(** A left-to-right scan of the characters of a string. *)
Fixpoint range_fold {A : Type} (f : A -> ascii -> A) (a : A) (s : string) : A :=
  match s with
  | EmptyString => a
  | String c s' => range_fold f (f a c) s'
  end.

(** ** The tokenizer (parser.go, [tokenize]) *)

(** The local variables of [tokenize]. *)
Record tok_state := TokState {
  tokens : list string;
  current : string;
  inQuotes : bool;
  quoteChar : ascii;
  escaped : bool
}.

Definition tok_init : tok_state :=
  TokState [] EmptyString false Ascii.zero false.

(** The body of the [for _, char := range line] loop. *)
Definition tokenize_step (st : tok_state) (char : ascii) : tok_state :=
  if escaped st then
    TokState (tokens st) (WriteRune (current st) char)
             (inQuotes st) (quoteChar st) false
  else if Ascii.eqb char backslash then
    TokState (tokens st) (current st) (inQuotes st) (quoteChar st) true
  else if Ascii.eqb char dquote || Ascii.eqb char squote then
    if negb (inQuotes st) then
      TokState (tokens st) (current st) true char (escaped st)
    else if Ascii.eqb char (quoteChar st) then
      TokState (tokens st) (current st) false (quoteChar st) (escaped st)
    else
      TokState (tokens st) (WriteRune (current st) char)
               (inQuotes st) (quoteChar st) (escaped st)
  else if Ascii.eqb char space || Ascii.eqb char tab then
    if inQuotes st then
      TokState (tokens st) (WriteRune (current st) char)
               (inQuotes st) (quoteChar st) (escaped st)
    else if negb (is_empty (current st)) then
      TokState (tokens st ++ [current st]) EmptyString
               (inQuotes st) (quoteChar st) (escaped st)
    else st
  else
    TokState (tokens st) (WriteRune (current st) char)
             (inQuotes st) (quoteChar st) (escaped st).

(** What [tokenize] does after the loop. *)
Definition tokenize_finish (st : tok_state) : result tokenize_error (list string) :=
  if inQuotes st then Err UnclosedQuote
  else if negb (is_empty (current st)) then Ok (tokens st ++ [current st])
  else Ok (tokens st).

Definition tokenize (line : string) : result tokenize_error (list string) :=
  tokenize_finish (range_fold tokenize_step tok_init line).

(** ** The command model (types.go) and the parser (parser.go) *)

Record Command := MkCommand {
  Name : string;
  Args : list string;
  Options : gmap string string
}.

Definition dash : string := "-".

(** The loop [for i := 1; i < len(tokens); i++] of [ParseCommand]; the
    loop runs at most [len(tokens)] times, which is the fuel
    [ParseCommand] gives it. *)
Fixpoint parse_loop (toks : list string) (fuel i : nat) (cmd : Command) : Command :=
  match fuel with
  | O => cmd
  | S fuel' =>
      if decide (i < length toks)%nat then
        let token := default EmptyString (toks !! i) in
        if HasPrefix token dash then
          if bool_decide (i + 1 < length toks)%nat
             && negb (HasPrefix (default EmptyString (toks !! (i + 1)%nat)) dash)
          then
            parse_loop toks fuel' (i + 1 + 1)%nat
              (MkCommand (Name cmd) (Args cmd)
                 (<[token := default EmptyString (toks !! (i + 1)%nat)]> (Options cmd)))
          else
            parse_loop toks fuel' (i + 1)%nat
              (MkCommand (Name cmd) (Args cmd) (<[token := EmptyString]> (Options cmd)))
        else
          parse_loop toks fuel' (i + 1)%nat
            (MkCommand (Name cmd) (Args cmd ++ [token]) (Options cmd))
      else cmd
  end.

Definition ParseCommand (line : string) : result parse_error Command :=
  let line := TrimSpace line in
  if is_empty line then Err EmptyCommand
  else
    match tokenize line with
    | Err e => Err (TokenizeError e)
    | Ok toks =>
        if decide (length toks = 0)%nat then Err NoTokens
        else
          Ok (parse_loop toks (length toks) 1
                (MkCommand (default EmptyString (toks !! 0%nat)) [] ∅))
    end.

(** ** The tokenizer and the parser as the specification words them *)



(** Emit the pending token, if it is not empty, in front of the tokens
    that follow. *)
Definition emit (cur : string) (r : result tokenize_error (list string))
  : result tokenize_error (list string) :=
  match r with
  | Ok ts => Ok (if is_empty cur then ts else cur :: ts)
  | Err e => Err e
  end.



(** What the tokens after the name are, by the rule of section 4.2. *)
Inductive item :=
| IOpt (key value : string)
| IArg (arg : string).

Fixpoint classify (ts : list string) : list item :=
  match ts with
  | [] => []
  | t :: rest =>
      if HasPrefix t dash then
        match rest with
        | v :: rest' =>
            if HasPrefix v dash then IOpt t EmptyString :: classify rest
            else IOpt t v :: classify rest'
        | [] => [IOpt t EmptyString]
        end
      else IArg t :: classify rest
  end.

Definition item_arg (it : item) : option string :=
  match it with IArg a => Some a | IOpt _ _ => None end.

Definition item_value (k : string) (it : item) : option string :=
  match it with
  | IOpt k' v => if decide (k' = k) then Some v else None
  | IArg _ => None
  end.

(** The positional arguments, in order. *)
Definition spec_args (its : list item) : list string := omap item_arg its.

(** The value of the last occurrence of the option key [k], if any. *)
Definition spec_option (k : string) (its : list item) : option string :=
  last (omap (item_value k) its).

(** What an item does to the option map: the write [cmd.Options[k] = v]. *)
Definition item_insert (opts : gmap string string) (it : item) : gmap string string :=
  match it with
  | IOpt k v => <[k := v]> opts
  | IArg _ => opts
  end.




(** Example lines. *)
Definition line_quoted : string :=
  "a " +:+ String dquote ("b c" +:+ String dquote " d").



(** ** Validation (parser.go, [ValidateCommand] and [isValidTimeFormat]) *)

(** The errors of [ValidateCommand]: ["command name cannot be empty"],
    ["cannot specify both -N (nodes) and -w (nodelist)"],
    ["invalid time format: %s ..."]. *)
Inductive validation_error :=
| EmptyName
| ConflictingOptions
| InvalidTimeFormat (timeLimit : string).

(** [unicode.IsDigit] on Latin-1, and the test [char >= '0' && char <= '9']
    of run.go. *)
Definition IsDigit (c : ascii) : bool :=
  (48 <=? nat_of_ascii c)%nat && (nat_of_ascii c <=? 57)%nat.

(** [strings.Contains(s, sep)] and [strings.Split(s, sep)] for a separator
    of one byte, which is how the code calls them. *)
Fixpoint Contains (s : string) (sep : ascii) : bool :=
  match s with
  | EmptyString => false
  | String c s' => Ascii.eqb c sep || Contains s' sep
  end.

Fixpoint Split (s : string) (sep : ascii) : list string :=
  match s with
  | EmptyString => [EmptyString]
  | String c s' =>
      if Ascii.eqb c sep then EmptyString :: Split s' sep
      else
        match Split s' sep with
        | p :: ps => String c p :: ps
        | [] => [String c EmptyString]
        end
  end.

(** The loop [for _, char := range timeStr { if !unicode.IsDigit(char)
    { return false } }]: [true] when the loop falls through. *)
Fixpoint all_digits (s : string) : bool :=
  match s with
  | EmptyString => true
  | String char s' => if negb (IsDigit char) then false else all_digits s'
  end.

Definition isValidTimeFormat (timeStr : string) : bool :=
  if Contains timeStr colon then
    let parts := Split timeStr colon in
    if bool_decide (length parts < 2)%nat || bool_decide (3 < length parts)%nat
    then false
    else true
  else
    if all_digits timeStr then bool_decide (0 < String.length timeStr)%nat
    else false.

Definition ValidateCommand (cmd : Command) : result validation_error unit :=
  if is_empty (Name cmd) then Err EmptyName
  else if bool_decide (is_Some (Options cmd !! "-N"))
          && bool_decide (is_Some (Options cmd !! "-w"))
  then Err ConflictingOptions
  else
    match Options cmd !! "-t" with
    | Some timeLimit =>
        if negb (is_empty timeLimit) && negb (isValidTimeFormat timeLimit)
        then Err (InvalidTimeFormat timeLimit)
        else Ok tt
    | None => Ok tt
    end.

(** *** Validation as the specification words it *)

(** A numeric field: a non-empty string of digits. *)
Definition numeric (s : string) : bool := negb (is_empty s) && all_digits s.



(** The number of occurrences of a character: the shape the code checks
    is stated with it. *)
Fixpoint count_char (c : ascii) (s : string) : nat :=
  match s with
  | EmptyString => 0
  | String c' s' => (if Ascii.eqb c' c then 1 else 0) + count_char c s'
  end.

(** The time values the code accepts: one or two colons, whatever is
    between them, or no colon and digits only. *)
Definition time_shape (v : string) : Prop :=
  (1 <= count_char colon v <= 2)%nat
  \/ (count_char colon v = 0%nat /\ v <> EmptyString /\ all_digits v = true).

(** ** Job options (types.go) and their projection (run.go, parser.go) *)

Module JobOptions.
Record t := Make {
  Name : string;
  Partition : string;
  Nodes : Z;
  CPUs : Z;
  Memory : string;
  TimeLimit : string;        (* the field [Time] *)
  QoS : string;
  Account : string;
  Output : string;
  Error : string;
  WorkDir : string;
  Environment : gmap string string;
  ExtraArgs : list string
}.
End JobOptions.

(** Go's [int] on a 64-bit platform: the value of an arithmetic result
    after wrap-around. *)
Definition wrap64 (z : Z) : Z := ((z + 2 ^ 63) mod 2 ^ 64 - 2 ^ 63)%Z.

Definition in_int64 (z : Z) : Prop := (- 2 ^ 63 <= z < 2 ^ 63)%Z.

(** [int(char - '0')] *)
Definition digit_value (char : ascii) : Z := (Z.of_nat (nat_of_ascii char) - 48)%Z.

Section JobOptionsProjection.
(** The digit test: [char >= '0' && char <= '9'] in run.go,
    [unicode.IsDigit(char)] in parser.go. *)
Variable digit : ascii -> bool.

(** The loop of [parseInt], from the accumulator [result]. *)
Fixpoint parseInt_loop (s : string) (result : Z) : Z :=
  match s with
  | EmptyString => result
  | String char s' =>
      if digit char
      then parseInt_loop s' (wrap64 (result * 10 + digit_value char))
      else 0%Z
  end.

Definition parseInt_with (s : string) : Z := parseInt_loop s 0%Z.

Definition is_one_of (opt : string) (names : list string) : bool :=
  bool_decide (opt ∈ names).

(** One iteration of [for opt, value := range options]: the [switch]. *)
Definition jobOptions_step (jobOpts : JobOptions.t) (kv : string * string)
  : JobOptions.t :=
  let opt := kv.1 in
  let value := kv.2 in
  let '(JobOptions.Make name partition nodes cpus memory time qos account
          output error workdir env extra) := jobOpts in
  if is_one_of opt ["-J"; "--job-name"] then
    JobOptions.Make value partition nodes cpus memory time qos account
      output error workdir env extra
  else if is_one_of opt ["-p"; "--partition"] then
    JobOptions.Make name value nodes cpus memory time qos account
      output error workdir env extra
  else if is_one_of opt ["-N"; "--nodes"] then
    if (parseInt_with value >? 0)%Z then
      JobOptions.Make name partition (parseInt_with value) cpus memory time
        qos account output error workdir env extra
    else jobOpts
  else if is_one_of opt ["-c"; "--cpus-per-task"] then
    if (parseInt_with value >? 0)%Z then
      JobOptions.Make name partition nodes (parseInt_with value) memory time
        qos account output error workdir env extra
    else jobOpts
  else if is_one_of opt ["--mem"] then
    JobOptions.Make name partition nodes cpus value time qos account
      output error workdir env extra
  else if is_one_of opt ["-t"; "--time"] then
    JobOptions.Make name partition nodes cpus memory value qos account
      output error workdir env extra
  else if is_one_of opt ["--qos"] then
    JobOptions.Make name partition nodes cpus memory time value account
      output error workdir env extra
  else if is_one_of opt ["-A"; "--account"] then
    JobOptions.Make name partition nodes cpus memory time qos value
      output error workdir env extra
  else if is_one_of opt ["-o"; "--output"] then
    JobOptions.Make name partition nodes cpus memory time qos account
      value error workdir env extra
  else if is_one_of opt ["-e"; "--error"] then
    JobOptions.Make name partition nodes cpus memory time qos account
      output value workdir env extra
  else if is_one_of opt ["-D"; "--chdir"] then
    JobOptions.Make name partition nodes cpus memory time qos account
      output error value env extra
  else if negb (is_empty value) then
    JobOptions.Make name partition nodes cpus memory time qos account
      output error workdir env (extra ++ [opt; value])
  else
    JobOptions.Make name partition nodes cpus memory time qos account
      output error workdir env (extra ++ [opt]).

(** [&slurm.JobOptions{Environment: make(map[string]string)}] *)
Definition jobOptions_zero : JobOptions.t :=
  JobOptions.Make EmptyString EmptyString 0 0 EmptyString EmptyString
    EmptyString EmptyString EmptyString EmptyString EmptyString ∅ [].

(** The projection, when the runtime enumerates the map in the order
    [order]. *)
Definition parseJobOptions_in (order : list (string * string)) : JobOptions.t :=
  foldl jobOptions_step jobOptions_zero order.
End JobOptionsProjection.

(** [order] is an order in which [for opt, value := range options] may
    visit the map: each entry once. *)
Definition enumerates (order : list (string * string)) (options : gmap string string)
  : Prop :=
  order ≡ₚ map_to_list options.

(** run.go *)
Definition parseInt : string -> Z := parseInt_with IsDigit.
Definition parseJobOptions : list (string * string) -> JobOptions.t :=
  parseJobOptions_in IsDigit.

(** parser.go; [unicode.IsDigit] is the same test on the characters of
    this model. *)
Definition shell_parseInt : string -> Z := parseInt_with IsDigit.
Definition ParseJobOptions : list (string * string) -> JobOptions.t :=
  parseJobOptions_in IsDigit.

(** The option keys the [switch] of the projection names. *)
Definition recognized_options : list string :=
  ["-J"; "--job-name"; "-p"; "--partition"; "-N"; "--nodes"; "-c";
   "--cpus-per-task"; "--mem"; "-t"; "--time"; "--qos"; "-A"; "--account";
   "-o"; "--output"; "-e"; "--error"; "-D"; "--chdir"].

(** The two spellings of an option that sets the same numeric field. *)
Definition nodes_keys : list string := ["-N"; "--nodes"].
Definition cpus_keys : list string := ["-c"; "--cpus-per-task"].

(** The value the claim calls invalid for a numeric option. *)
Definition not_a_positive_count (v : string) : Prop :=
  numeric v = false \/ parseInt v = 0%Z.

(** [sub] occurs in [l] as a run of consecutive elements. *)
Definition occurs_in {A} (sub l : list A) : Prop :=
  exists pre post, l = pre ++ sub ++ post.

(** What one map entry adds to [ExtraArgs]. *)
Definition extra_of (kv : string * string) : list string :=
  if bool_decide (kv.1 ∈ recognized_options) then []
  else if negb (is_empty kv.2) then [kv.1; kv.2]
  else [kv.1].

(** ** The history manager (history.go) *)

(** [Timestamp] is an instant in nanoseconds since the Unix epoch,
    [Duration] a number of nanoseconds, as [time.Duration] is. *)
Record HistoryEntry := MkEntry {
  EntryCommand : string;
  EntryTimestamp : Z;
  EntrySuccess : bool;
  EntryDuration : Z
}.

Record History := MkHistory {
  entries : list HistoryEntry;
  maxSize : Z;
  filePath : string
}.

Definition second : Z := 1000000000.

(** [t.Unix()] and [time.Unix(sec, 0)]. *)
Definition Unix (t : Z) : Z := (t / second)%Z.
Definition time_Unix (sec : Z) : Z := (sec * second)%Z.

(** [NewHistory]; [homeDir] is what [os.UserHomeDir] gave, or ["/tmp"]. *)
Definition NewHistory (homeDir : string) (maxSize : Z) : History :=
  MkHistory [] maxSize (homeDir +:+ "/.slsh_history").

(** The slice expression [s[low:]]: it panics ([None]) when [low] is
    out of range. *)
Definition slice_from {A} (s : list A) (low : Z) : option (list A) :=
  if decide (0 <= low <= Z.of_nat (length s))%Z
  then Some (drop (Z.to_nat low) s)
  else None.

(** "Keep only the last maxSize entries": the [if len(..) > h.maxSize]
    statement of [Add] and of [Load]. *)
Definition keep_last (max : Z) (es : list HistoryEntry) : option (list HistoryEntry) :=
  if decide (Z.of_nat (length es) > max)%Z
  then slice_from es (Z.of_nat (length es) - max)
  else Some es.

(** [Add]; [now] is what [time.Now()] returns.  [None] is a panic. *)
Definition Add (h : History) (command : string) (success : bool) (duration : Z)
    (now : Z) : option History :=
  let entry := MkEntry (TrimSpace command) now success duration in
  if is_empty (EntryCommand entry) then Some h
  else if bool_decide (0 < length (entries h))%nat
          && match last (entries h) with
             | Some e => String.eqb (EntryCommand e) (EntryCommand entry)
             | None => false
             end
  then Some h
  else
    es ← keep_last (maxSize h) (entries h ++ [entry]);
    Some (MkHistory es (maxSize h) (filePath h)).

Definition Clear (h : History) : History :=
  MkHistory [] (maxSize h) (filePath h).

(** *** The persisted encoding *)

(** The verbs [%d] and [%t] of [fmt.Sprintf]. *)
Definition FormatInt (z : Z) : string := NilZero.string_of_int (Z.to_int z).
Definition FormatBool (b : bool) : string := if b then "true" else "false".

(** [fmt.Sprintf("%d|%t|%d|%s\n", ...)] for one entry. *)
Definition entry_line (entry : HistoryEntry) : string :=
  FormatInt (Unix (EntryTimestamp entry)) +:+ String pipe
    (FormatBool (EntrySuccess entry) +:+ String pipe
       (FormatInt (EntryDuration entry) +:+ String pipe
          (EntryCommand entry +:+ String newline EmptyString))).

(** [Save]: the content of the file once it is written (failures of the
    file system are not part of the model). *)
Fixpoint Save_lines (es : list HistoryEntry) : string :=
  match es with
  | [] => EmptyString
  | entry :: rest => entry_line entry +:+ Save_lines rest
  end.

Definition Save (h : History) : string := Save_lines (entries h).

(** [strings.Cut(s, sep)] for a separator of one byte: the text before
    the first separator, and the text after it if there is one. *)
Fixpoint Cut (s : string) (sep : ascii) : string * option string :=
  match s with
  | EmptyString => (EmptyString, None)
  | String c s' =>
      if Ascii.eqb c sep then (EmptyString, Some s')
      else let '(before, after) := Cut s' sep in (String c before, after)
  end.

(** [strings.SplitN(s, sep, n)] for a separator of one byte. *)
Fixpoint SplitN (s : string) (sep : ascii) (n : nat) : list string :=
  match n with
  | O => []
  | S O => [s]
  | S n' =>
      match Cut s sep with
      | (before, Some after) => before :: SplitN after sep n'
      | (before, None) => [before]
      end
  end.

(** [fmt]'s [SkipSpace] for [Sscanf]: spaces are skipped, a newline is
    an error. *)
Fixpoint SkipSpace (s : string) : option string :=
  match s with
  | EmptyString => Some EmptyString
  | String c s' =>
      if Ascii.eqb c newline then None
      else if isSpace c then SkipSpace s'
      else Some s
  end.

(** The longest prefix of characters that satisfy [p], and the rest. *)
Fixpoint span (p : ascii -> bool) (s : string) : string * string :=
  match s with
  | EmptyString => (EmptyString, EmptyString)
  | String c s' =>
      if p c then let '(a, b) := span p s' in (String c a, b)
      else (EmptyString, s)
  end.

Definition int64_cutoff : Z := (2 ^ 63)%Z.

(** [strconv.ParseInt(s, 10, 64)]: an optional sign, then digits only;
    out of range is an error. *)
Definition ParseInt (s : string) : option Z :=
  let '(neg, digits) :=
    match s with
    | String c rest =>
        if Ascii.eqb c "+" then (false, rest)
        else if Ascii.eqb c "-" then (true, rest)
        else (false, s)
    | EmptyString => (false, s)
    end in
  match NilZero.uint_of_string digits with
  | None => None
  | Some d =>
      let un := Z.of_uint d in
      if neg then (if (un >? int64_cutoff)%Z then None else Some (- un)%Z)
      else (if (un >=? int64_cutoff)%Z then None else Some un)
  end.

(** [fmt.Sscanf(s, "%d", &v)]: skip spaces, accept a sign, scan digits
    and underscores, convert; what follows the number is not read. *)
Definition Sscanf_d (s : string) : option Z :=
  match SkipSpace s with
  | None => None
  | Some EmptyString => None
  | Some (String c rest as s1) =>
      let '(sign, s2) :=
        if Ascii.eqb c "+" || Ascii.eqb c "-"
        then (String c EmptyString, rest) else (EmptyString, s1) in
      let '(tok, _) := span (fun c => IsDigit c || Ascii.eqb c "_") s2 in
      if is_empty tok then None else ParseInt (sign +:+ tok)
  end.

(** [accept]: consume the next character when it is one of [set]. *)
Definition accept (set : list ascii) (s : string) : bool * string :=
  match s with
  | String c rest => if bool_decide (c ∈ set) then (true, rest) else (false, s)
  | EmptyString => (false, s)
  end.

(** [fmt.Sscanf(s, "%t", &v)], that is [scanBool]: [0], [1], or a word
    that starts with [t], [T], [f] or [F]; any other first character
    scans as [false]. *)
Definition Sscanf_t (s : string) : option bool :=
  match SkipSpace s with
  | None => None
  | Some EmptyString => None
  | Some (String c rest) =>
      if Ascii.eqb c "0" then Some false
      else if Ascii.eqb c "1" then Some true
      else if Ascii.eqb c "t" || Ascii.eqb c "T" then
        let '(r, s1) := accept ["r"; "R"]%char rest in
        let '(u, s2) := accept ["u"; "U"]%char s1 in
        let '(e, _) := accept ["e"; "E"]%char s2 in
        if r && (negb u || negb e) then None else Some true
      else if Ascii.eqb c "f" || Ascii.eqb c "F" then
        let '(a, s1) := accept ["a"; "A"]%char rest in
        let '(l, s2) := accept ["l"; "L"]%char s1 in
        let '(s', s3) := accept ["s"; "S"]%char s2 in
        let '(e, _) := accept ["e"; "E"]%char s3 in
        if a && (negb l || negb s' || negb e) then None else Some false
      else Some false
  end.

(** [parseHistoryLine]; [None] is any of its errors. *)
Definition parseHistoryLine (line : string) : option HistoryEntry :=
  match SplitN line pipe 4 with
  | [p0; p1; p2; p3] =>
      match Sscanf_d p0 with
      | None => None
      | Some timestamp =>
          match Sscanf_t p1 with
          | None => None
          | Some success =>
              match Sscanf_d p2 with
              | None => None
              | Some duration =>
                  Some (MkEntry p3 (time_Unix timestamp) success duration)
              end
          end
      end
  | _ => None
  end.

(** [bufio.MaxScanTokenSize]: a line does not fit the buffer of a
    [bufio.Scanner] when it has this many bytes or more. *)
Definition MaxScanTokenSize : Z := 65536.

Inductive load_error := ErrTooLong.

(** [dropCR] of [bufio.ScanLines]. *)
Fixpoint dropCR (s : string) : string :=
  match s with
  | EmptyString => EmptyString
  | String c EmptyString => if Ascii.eqb c creturn then EmptyString else s
  | String c s' => String c (dropCR s')
  end.

(** The lines [bufio.ScanLines] cuts the content into, line ends taken
    off: every text that a newline ends, and what is left after the
    last newline when that is not empty. *)
Definition raw_lines (content : string) : list string :=
  let parts := Split content newline in
  match last parts with
  | Some EmptyString => removelast parts
  | _ => parts
  end.

(** The texts [scanner.Text()] returns in turn, or the error of the
    scanner when a line is too long for its buffer. *)
Definition scan_lines (content : string) : result load_error (list string) :=
  let raw := raw_lines content in
  if forallb (fun l => bool_decide (Z.of_nat (String.length l) < MaxScanTokenSize)%Z) raw
  then Ok (map dropCR raw)
  else Err ErrTooLong.

(** The body of the [for scanner.Scan()] loop of [Load]. *)
Definition load_line (acc : list HistoryEntry) (text : string) : list HistoryEntry :=
  let line := TrimSpace text in
  if is_empty line then acc
  else
    match parseHistoryLine line with
    | None => acc
    | Some entry => acc ++ [entry]
    end.

(** The entries a file content decodes to. *)
Definition decode_lines (texts : list string) : list HistoryEntry :=
  foldl load_line [] texts.

(** [Load]; [file] is the content of the history file, [None] when the
    file does not exist.  The outer [None] is a panic; the error is the
    one [Load] returns. *)
Definition Load (h : History) (file : option string)
  : option (History * option load_error) :=
  match file with
  | None => Some (h, None)
  | Some content =>
      match scan_lines content with
      | Err e => Some (h, Some e)
      | Ok texts =>
          es ← keep_last (maxSize h) (decode_lines texts);
          Some (MkHistory es (maxSize h) (filePath h), None)
      end
  end.

(** *** The states of a history *)

Inductive history_op :=
| OpAdd (command : string) (success : bool) (duration now : Z)
| OpLoad (file : option string)
| OpClear.

Definition apply_op (h : History) (op : history_op) : option History :=
  match op with
  | OpAdd command success duration now => Add h command success duration now
  | OpLoad file => fst <$> Load h file
  | OpClear => Some (Clear h)
  end.

(** What the types of Go give for the arguments of an operation, and
    [ok_file] for the content of the file a [Load] meets. *)
Definition op_ok (ok_file : string -> Prop) (op : history_op) : Prop :=
  match op with
  | OpAdd _ _ duration now => in_int64 duration /\ in_int64 (Unix now)
  | OpLoad (Some content) => ok_file content
  | OpLoad None => True
  | OpClear => True
  end.

(** The histories that a sequence of operations reaches from a new
    history. *)
Inductive reachable_with (ok_file : string -> Prop) (homeDir : string) (max : Z)
  : History -> Prop :=
| reach_new : reachable_with ok_file homeDir max (NewHistory homeDir max)
| reach_step h op h' :
    reachable_with ok_file homeDir max h ->
    op_ok ok_file op ->
    apply_op h op = Some h' ->
    reachable_with ok_file homeDir max h'.

(** Any file content may be met. *)
Definition reachable : string -> Z -> History -> Prop :=
  reachable_with (fun _ => True).

(** The invariant of section 3 on the entries of a log. *)
Fixpoint no_repeat (es : list HistoryEntry) : Prop :=
  match es with
  | e1 :: ((e2 :: _) as rest) => EntryCommand e1 <> EntryCommand e2 /\ no_repeat rest
  | _ => True
  end.

Definition entries_ok (es : list HistoryEntry) : Prop :=
  Forall (fun e => EntryCommand e <> EmptyString) es /\ no_repeat es.

(** A file in which every line that [Load] accepts has a command, and
    no two accepted lines in a row have the same one. *)
Definition file_ok (content : string) : Prop :=
  match scan_lines content with
  | Ok texts => entries_ok (decode_lines texts)
  | Err _ => True
  end.

(** What a round trip through the file keeps of an entry: the
    timestamp to the second. *)
Definition at_second (e : HistoryEntry) : HistoryEntry :=
  MkEntry (EntryCommand e) (time_Unix (Unix (EntryTimestamp e)))
          (EntrySuccess e) (EntryDuration e).

(** The triple of the round-trip property. *)
Definition triple (e : HistoryEntry) : string * bool * Z :=
  (EntryCommand e, EntrySuccess e, EntryDuration e).

(** A command that ends with no white space, as [Add] and [Load] store
    them. *)
Definition right_trimmed (s : string) : Prop := TrimRight s = s.

(** What the types of Go give for the numbers of an entry. *)
Definition entry_int64 (e : HistoryEntry) : Prop :=
  in_int64 (Unix (EntryTimestamp e)) /\ in_int64 (EntryDuration e).

(** A sequence of operations, one after the other. *)
Fixpoint run_ops (h : History) (ops : list history_op) : option History :=
  match ops with
  | [] => Some h
  | op :: rest => h' ← apply_op h op; run_ops h' rest
  end.

(** Every character of a string satisfies [p]. *)
Fixpoint all_chars (p : ascii -> bool) (s : string) : bool :=
  match s with
  | EmptyString => true
  | String c s' => p c && all_chars p s'
  end.

(** A line of the file without its line end. *)
Definition entry_text (entry : HistoryEntry) : string :=
  FormatInt (Unix (EntryTimestamp entry)) +:+ String pipe
    (FormatBool (EntrySuccess entry) +:+ String pipe
       (FormatInt (EntryDuration entry) +:+ String pipe (EntryCommand entry))).

(** An entry that [Save] and [Load] carry through the file: a command
    of one line, in a line that fits the buffer of the scanner. *)
Definition fits_a_line (e : HistoryEntry) : Prop :=
  Contains (EntryCommand e) newline = false
  /\ (Z.of_nat (String.length (entry_text e)) < MaxScanTokenSize)%Z.

(** An entry as [Add] and [Load] store them: a command that ends with
    no white space, and numbers of 64 bits. *)
Definition entry_wf (e : HistoryEntry) : Prop :=
  right_trimmed (EntryCommand e) /\ entry_int64 e.

(** ** The external-execution collaborator (client.go) *)

(** The two ways a child process is run: with its output captured and a
    timeout, or with the streams of the shell and no timeout. *)
Inductive exec_mode :=
| Captured (timeout : Z)
| Interactive.

(** How the run of a child ends: it could not be started, or it was
    started and waited for, with the exit code [ExitCode()] reports (-1
    for a child that a signal killed, as the timeout does). *)
Inductive child_end :=
| StartFailed
| Exited (code : Z).

Record child_run := ChildRun {
  ended : child_end;
  child_stdout : string;
  child_stderr : string;
  took : Z
}.

(** What the program does not decide: what a child process does, and
    the order in which a [range] loop visits a map. *)
Record runtime := Runtime {
  run_child : exec_mode -> string -> list string -> child_run;
  range_map : gmap string string -> list (string * string)
}.

(** What the shell does that can be seen from outside. *)
Inductive event :=
| EvRun (mode : exec_mode) (command : string) (args : list string)
| EvPrint (text : string)
| EvHandler (name : string) (cmd : Command).

(** The error of [exec.Cmd.Run]: [nil] when the child ran and exited
    with status zero; an [*exec.ExitError] when it started and did not
    complete successfully; another error when it could not be run. *)
Inductive run_error :=
| StartError
| ExitError (code : Z).

Definition cmd_Run (r : child_run) : option run_error :=
  match ended r with
  | StartFailed => Some StartError
  | Exited code => if (code =? 0)%Z then None else Some (ExitError code)
  end.

Record CommandResult := MkResult {
  Success : bool;
  ExitCode : Z;
  Output : string;
  Error : string;
  Duration : Z
}.

Record Client := MkClient { timeout : Z }.

Definition NewClient : Client := MkClient (30 * second).

(** [Client.Execute]: the result, the error ([fmt.Errorf("command
    failed: %v", err)], here the error it wraps), and the run itself. *)
Definition Client_Execute (rt : runtime) (c : Client) (command : string)
    (args : list string) : CommandResult * option run_error * list event :=
  let r := run_child rt (Captured (timeout c)) command args in
  let err := cmd_Run r in
  let exitCode :=
    match err with
    | Some (ExitError code) => code
    | Some StartError => (-1)%Z
    | None => 0%Z
    end in
  (MkResult (bool_decide (err = None)) exitCode (child_stdout r) (child_stderr r)
            (took r),
   err,
   [EvRun (Captured (timeout c)) command args]).

(** [Client.ExecuteInteractive]: [return cmd.Run()]. *)
Definition Client_ExecuteInteractive (rt : runtime) (command : string)
    (args : list string) : option run_error * list event :=
  (cmd_Run (run_child rt Interactive command args),
   [EvRun Interactive command args]).

(** ** The registry (registry.go) *)

(** What a handler can reach of the shell through [ShellInterface] and
    the objects it was built with. *)
Record shell_state := MkState {
  Aliases : gmap string string;
  history : History;
  running : bool
}.

(** The interface [CommandHandler]: its method [Execute]; the error is
    the handler's message. *)
Record CommandHandler := MkHandler {
  Execute : Command -> shell_state -> shell_state * option string
}.

Inductive dispatch_error :=
| HandlerError (message : string)
| CommandFailed (e : run_error)
| InteractiveError (e : run_error).

Definition slurmCommands : list string :=
  ["srun"; "sbatch"; "scancel"; "squeue"; "sinfo"; "sacct";
   "scontrol"; "sstat"; "sprio"; "sshare"; "sreport";
   "salloc"; "sattach"; "sacctmgr"].

(** The loop body of [buildArgs] for one option. *)
Definition buildArgs_step (args : list string) (kv : string * string) : list string :=
  let args := args ++ [kv.1] in
  if negb (is_empty kv.2) then args ++ [kv.2] else args.

Definition buildArgs (rt : runtime) (cmd : Command) : list string :=
  foldl buildArgs_step [] (range_map rt (Options cmd)) ++ Args cmd.

(** The two [fmt.Print] of a captured result. *)
Definition echo (result : CommandResult) : list event :=
  (if negb (is_empty (Output result)) then [EvPrint (Output result)] else [])
  ++ (if negb (is_empty (Error result)) then [EvPrint (Error result)] else []).

Definition executeSystemCommand (rt : runtime) (client : Client) (cmd : Command)
  : option dispatch_error * list event :=
  let isSlurmCommand := existsb (String.eqb (Name cmd)) slurmCommands in
  if isSlurmCommand then
    let args := buildArgs rt cmd in
    let '(result, err, evs) := Client_Execute rt client (Name cmd) args in
    match err with
    | Some e => (Some (CommandFailed e), evs)
    | None => (None, evs ++ echo result)
    end
  else
    let args := buildArgs rt cmd in
    let '(err, evs) := Client_ExecuteInteractive rt (Name cmd) args in
    (InteractiveError <$> err, evs).

(** [Registry.Execute] *)
Definition Registry_Execute (rt : runtime) (commands : gmap string CommandHandler)
    (client : Client) (cmd : Command) (st : shell_state)
  : shell_state * option dispatch_error * list event :=
  match commands !! Name cmd with
  | None =>
      let '(err, evs) := executeSystemCommand rt client cmd in (st, err, evs)
  | Some handler =>
      let '(st', err) := Execute handler cmd st in
      (st', HandlerError <$> err, [EvHandler (Name cmd) cmd])
  end.

(** ** The shell (shell.go) *)

Record Shell := MkShell {
  state : shell_state;
  client : Client;
  commands : gmap string CommandHandler
}.

(** What [executeCommand] prints about a line that failed. *)
Inductive shell_error :=
| ParseFailed (e : parse_error)           (* "Error parsing command: %v" *)
| InvalidCommand (e : validation_error)   (* "Invalid command: %v" *)
| AliasParseFailed (e : parse_error)      (* "Error parsing alias: %v" *)
| DispatchFailed (e : dispatch_error).    (* "Error: %v" *)

(** The text that is printed is not modelled, only which error it
    reports. *)
Inductive shell_event :=
| Did (ev : event)
| Failed (e : shell_error).

(** [s.history.Add(line, success, time.Since(startTime))]; [None] is a
    panic of [Add]. *)
Definition record_line (s : Shell) (st : shell_state) (line : string)
    (success : bool) (elapsed now : Z) : option Shell :=
  h ← Add (history st) line success elapsed now;
  Some (MkShell (MkState (Aliases st) h (running st)) (client s) (commands s)).

(** The block [if alias, exists := s.config.Aliases[cmd.Name]; exists]. *)
Definition resolveAlias (aliases : gmap string string) (cmd : Command)
  : result parse_error Command :=
  match aliases !! Name cmd with
  | Some alias => ParseCommand (alias +:+ " " +:+ Join (Args cmd) " ")
  | None => Ok cmd
  end.

(** [Shell.executeCommand]; [elapsed] is what [time.Since(startTime)]
    gives when the line is recorded, [now] what [time.Now()] gives in
    [Add]. *)
Definition executeCommand (rt : runtime) (s : Shell) (line : string)
    (elapsed now : Z) : option (Shell * list shell_event) :=
  match ParseCommand line with
  | Err e =>
      s' ← record_line s (state s) line false elapsed now;
      Some (s', [Failed (ParseFailed e)])
  | Ok cmd =>
      match ValidateCommand cmd with
      | Err e =>
          s' ← record_line s (state s) line false elapsed now;
          Some (s', [Failed (InvalidCommand e)])
      | Ok _ =>
          match resolveAlias (Aliases (state s)) cmd with
          | Err e =>
              s' ← record_line s (state s) line false elapsed now;
              Some (s', [Failed (AliasParseFailed e)])
          | Ok cmd =>
              let '(st', err, evs) :=
                Registry_Execute rt (commands s) (client s) cmd (state s) in
              let report :=
                match err with
                | Some e => [Failed (DispatchFailed e)]
                | None => []
                end in
              s' ← record_line s st' line (bool_decide (err = None)) elapsed now;
              Some (s', (Did <$> evs) ++ report)
          end
      end
  end.

(** *** Reading the events *)

(** The text the shell printed with [fmt.Print], in order. *)
Fixpoint printed (evs : list event) : string :=
  match evs with
  | [] => EmptyString
  | EvPrint text :: rest => text +:+ printed rest
  | _ :: rest => printed rest
  end.

(** The commands that were given to a handler or to an external
    program. *)
Definition execution (ev : shell_event) : option (string * option exec_mode) :=
  match ev with
  | Did (EvRun mode command _) => Some (command, Some mode)
  | Did (EvHandler name _) => Some (name, None)
  | _ => None
  end.

Definition executions (evs : list shell_event) : list (string * option exec_mode) :=
  omap execution evs.

(** The command [executeCommand] gives to [Registry.Execute], when it
    gets that far. *)
Definition dispatched (aliases : gmap string string) (line : string)
  : result shell_error Command :=
  match ParseCommand line with
  | Err e => Err (ParseFailed e)
  | Ok cmd =>
      match ValidateCommand cmd with
      | Err e => Err (InvalidCommand e)
      | Ok _ =>
          match resolveAlias aliases cmd with
          | Err e => Err (AliasParseFailed e)
          | Ok cmd' => Ok cmd'
          end
      end
  end.

(** ** Example inputs *)

(** The commands of the two example lines of the parser. *)
Definition example_run_N : Command :=
  MkCommand "run" ["hostname"] {[ "-N" := "2" ]}.


Definition options_invalid_count : gmap string string :=
  <[ "-N" := "2x" ]> (<[ "--foo" := "bar" ]> {[ "-p" := "gpu" ]}).



(** A session: a command, the same command again, a blank line, two
    more commands, with a maximum of two entries. *)
Definition session_ops : list history_op :=
  [OpAdd "sinfo" true 1500 1700000000000000001;
   OpAdd " sinfo  " false 1700 1700000001000000002;
   OpAdd "   " true 3 1700000002000000003;
   OpAdd "squeue -u bob" true 2500 1700000003000000004;
   OpAdd "scancel 42" false 900 1700000004000000005].
Definition session_history : History :=
  MkHistory [MkEntry "squeue -u bob" 1700000003000000004 true 2500;
             MkEntry "scancel 42" 1700000004000000005 false 900] 2
            "/home/u/.slsh_history".

(** A handler that succeeds and leaves the shell as it is, and a shell
    with the handlers [run] and [status] registered. *)
Definition handler_ok : CommandHandler := MkHandler (fun _ st => (st, None)).

Definition registry_run_status : gmap string CommandHandler :=
  <[ "run" := handler_ok ]> {[ "status" := handler_ok ]}.

Definition shell_with (aliases : gmap string string) : Shell :=
  MkShell (MkState aliases (NewHistory "/home/u" 1000) true)
          NewClient registry_run_status.

Definition cmd_squeue_bob : Command :=
  MkCommand "squeue" [] {[ "-u" := "bob" ]}.
Definition cmd_vim : Command := MkCommand "vim" ["notes.txt"] ∅.

(** A world in which every child process is started and exits with
    status 1, with a message on its standard error. *)
Definition rt_children_fail : runtime :=
  Runtime (fun _ _ _ => ChildRun (Exited 1) EmptyString "error: no such user" 5)
          map_to_list.

(** Alias tables: the example of the specification, a chain of two
    aliases, and an alias whose expansion has both [-N] and [-w]. *)
Definition aliases_q : gmap string string := {[ "q" := "queue" ]}.
Definition aliases_conflict : gmap string string :=
  {[ "r" := "run -N 2 -w node1 hostname" ]}.
Definition cmd_conflict : Command :=
  MkCommand "run" ["hostname"] (<[ "-N" := "2" ]> {[ "-w" := "node1" ]}).

(** A command of 65536 characters, and the history that holds it. *)
Definition long_command : string :=
  N.iter 65536 (String "a"%char) EmptyString.
Definition history_long_command : History :=
  MkHistory [MkEntry long_command 1700000000000000000 true 5] 1000
            "/home/u/.slsh_history".

(** A session with a command that holds the separator of the file. *)
Definition pipe_ops : list history_op :=
  [OpAdd "squeue -u bob | grep RUNNING" true 1234567 1700000000123456789;
   OpAdd "echo |a|b" false 15 1700000001999999999].
Definition pipe_history : History :=
  MkHistory [MkEntry "squeue -u bob | grep RUNNING" 1700000000123456789 true 1234567;
             MkEntry "echo |a|b" 1700000001999999999 false 15] 1000
            "/home/u/.slsh_history".

(* ===================================================================== *)
(** * Part I, continued: more of the code                                 *)
(* ===================================================================== *)

(** ** The queries of the history manager ([GetLast], [Search],
       [GetByIndex]) *)

(** [GetLast]; [start] is computed for [n > 0] only, so that the
    subtraction stays within the range of [int].  [None] is a panic of
    the slice expression [h.entries[start:]]. *)
Definition GetLast (h : History) (n : Z) : option (list HistoryEntry) :=
  if (n <=? 0)%Z || (length (entries h) =? 0)%nat then Some []
  else
    let start := (Z.of_nat (length (entries h)) - n)%Z in
    let start := if (start <? 0)%Z then 0%Z else start in
    slice_from (entries h) start.

(** The index expression [s[i]]: it panics ([None]) when [i] is out of
    range. *)
Definition index_at {A} (s : list A) (i : Z) : option A :=
  if decide (0 <= i < Z.of_nat (length s))%Z then s !! Z.to_nat i else None.

(** ["history index %d out of range (1-%d)"] *)
Inductive index_error := IndexOutOfRange (index : Z) (len : nat).

(** [GetByIndex]; the outer [None] is a panic of the index expression. *)
Definition GetByIndex (h : History) (index : Z)
  : option (result index_error string) :=
  if (index <? 1)%Z || (index >? Z.of_nat (length (entries h)))%Z
  then Some (Err (IndexOutOfRange index (length (entries h))))
  else
    e ← index_at (entries h) (index - 1);
    Some (Ok (EntryCommand e)).








(** ** The rest of the parser ([SplitCommandLine]) *)







From stdpp Require sorting.

(** ** The rest of the registry ([Register], [GetCommand],
       [GetCommandNames]) *)



(** The order of Go on strings, byte by byte: [a <= b]. *)
Definition string_le (a b : string) : Prop := String.leb a b = true.

#[global] Instance string_le_dec : RelDecision string_le :=
  fun a b => decide (String.leb a b = true).

(** [sort.Strings]: the strings in increasing order. *)
Definition sort_Strings (a : list string) : list string := sorting.merge_sort string_le a.

(** [GetCommandNames], when [range r.commands] visits the map in the
    order [order]. *)
Definition GetCommandNames (order : list (string * CommandHandler)) : list string :=
  sort_Strings (foldl (fun names kv => names ++ [kv.1]) [] order).

(** [order] is an order in which [range] may visit the handlers. *)
Definition enumerates_handlers (order : list (string * CommandHandler))
    (commands : gmap string CommandHandler) : Prop :=
  order ≡ₚ map_to_list commands.

(** ** The rest of the client ([RunJob], [SubmitJob], [buildJobArgs]) *)

(** [buildJobArgs]; [fmt.Sprintf("--nodes=%d", n)] is the prefix and
    the decimal digits of [n]. *)
Definition buildJobArgs (rt : runtime) (options : JobOptions.t) : list string :=
  let args := [] in
  let args :=
    if negb (is_empty (JobOptions.Name options))
    then args ++ ["--job-name=" +:+ JobOptions.Name options] else args in
  let args :=
    if negb (is_empty (JobOptions.Partition options))
    then args ++ ["--partition=" +:+ JobOptions.Partition options] else args in
  let args :=
    if (JobOptions.Nodes options >? 0)%Z
    then args ++ ["--nodes=" +:+ FormatInt (JobOptions.Nodes options)] else args in
  let args :=
    if (JobOptions.CPUs options >? 0)%Z
    then args ++ ["--cpus-per-task=" +:+ FormatInt (JobOptions.CPUs options)]
    else args in
  let args :=
    if negb (is_empty (JobOptions.Memory options))
    then args ++ ["--mem=" +:+ JobOptions.Memory options] else args in
  let args :=
    if negb (is_empty (JobOptions.TimeLimit options))
    then args ++ ["--time=" +:+ JobOptions.TimeLimit options] else args in
  let args :=
    if negb (is_empty (JobOptions.QoS options))
    then args ++ ["--qos=" +:+ JobOptions.QoS options] else args in
  let args :=
    if negb (is_empty (JobOptions.Account options))
    then args ++ ["--account=" +:+ JobOptions.Account options] else args in
  let args :=
    if negb (is_empty (JobOptions.Output options))
    then args ++ ["--output=" +:+ JobOptions.Output options] else args in
  let args :=
    if negb (is_empty (JobOptions.Error options))
    then args ++ ["--error=" +:+ JobOptions.Error options] else args in
  let args :=
    if negb (is_empty (JobOptions.WorkDir options))
    then args ++ ["--chdir=" +:+ JobOptions.WorkDir options] else args in
  let args :=
    foldl (fun args kv => args ++ ["--export=" +:+ kv.1 +:+ "=" +:+ kv.2])
          args (range_map rt (JobOptions.Environment options)) in
  args ++ JobOptions.ExtraArgs options.

(** [RunJob] and [SubmitJob]; [options] is [None] for a [nil]
    pointer. *)
Definition RunJob (rt : runtime) (c : Client) (command : string)
    (options : option JobOptions.t)
  : CommandResult * option run_error * list event :=
  let args := [] in
  let args :=
    match options with
    | Some o => args ++ buildJobArgs rt o
    | None => args
    end in
  let args := if negb (is_empty command) then args ++ [command] else args in
  Client_Execute rt c "srun" args.

Definition SubmitJob (rt : runtime) (c : Client) (scriptPath : string)
    (options : option JobOptions.t)
  : CommandResult * option run_error * list event :=
  let args := [] in
  let args :=
    match options with
    | Some o => args ++ buildJobArgs rt o
    | None => args
    end in
  let args := args ++ [scriptPath] in
  Client_Execute rt c "sbatch" args.

(** ** The configuration ([config.Config]) *)

Module Config.
Record t := Make {
  DefaultPartition : string;
  DefaultNodes : Z;
  DefaultCPUs : Z;
  DefaultMemory : string;
  DefaultTime : string;
  DefaultQoS : string;
  DefaultAccount : string;
  Prompt : string;
  HistorySize : Z;
  AutoComplete : bool;
  ShowTimestamps : bool;
  ColorOutput : bool;
  Aliases : gmap string string;
  DefaultOutputDir : string;
  JobNameTemplate : string;
  CommandTimeout : Z;
  ConfirmDangerous : bool;
  SaveJobHistory : bool
}.

(** [Default]; [outputDir] is what [filepath.Join(homeDir,
    "slurm_jobs")] gave. *)
Definition Default (outputDir : string) : t :=
  Make EmptyString 1 1 EmptyString "01:00:00" EmptyString EmptyString
       "slsh> " 1000 true false true
       (<[ "q" := "queue" ]> (<[ "j" := "jobs" ]> (<[ "n" := "nodes" ]>
          (<[ "h" := "help" ]> {[ "st" := "status" ]}))))
       outputDir "job_%j" 30 true true.

(** The errors of [Validate]: ["history_size cannot be negative"],
    ["command_timeout_seconds must be at least 1"],
    ["invalid default_time format: %s"]. *)
Inductive error :=
| NegativeHistorySize
| CommandTimeoutTooSmall
| InvalidDefaultTime (timeStr : string).

(** [isValidTimeFormat] of package [config]. *)
Definition isValidTimeFormat (timeStr : string) : bool :=
  bool_decide (0 < String.length timeStr)%nat.

Definition Validate (c : t) : result error unit :=
  if (HistorySize c <? 0)%Z then Err NegativeHistorySize
  else if (CommandTimeout c <? 1)%Z then Err CommandTimeoutTooSmall
  else if negb (is_empty (DefaultTime c)) && negb (isValidTimeFormat (DefaultTime c))
  then Err (InvalidDefaultTime (DefaultTime c))
  else Ok tt.

(** [UpdateDefaults] *)
Definition UpdateDefaults (c : t) (partition : string) (nodes cpus : Z)
    (memory time : string) : t :=
  Make (if negb (is_empty partition) then partition else DefaultPartition c)
       (if (nodes >? 0)%Z then nodes else DefaultNodes c)
       (if (cpus >? 0)%Z then cpus else DefaultCPUs c)
       (if negb (is_empty memory) then memory else DefaultMemory c)
       (if negb (is_empty time) then time else DefaultTime c)
       (DefaultQoS c) (DefaultAccount c) (Prompt c) (HistorySize c)
       (AutoComplete c) (ShowTimestamps c) (ColorOutput c) (Aliases c)
       (DefaultOutputDir c) (JobNameTemplate c) (CommandTimeout c)
       (ConfirmDangerous c) (SaveJobHistory c).
End Config.

(** ** The command [run]: the defaults ([RunCommand.applyDefaults]) *)

Definition applyDefaults (config : Config.t) (opts : JobOptions.t) : JobOptions.t :=
  let '(JobOptions.Make name partition nodes cpus memory time qos account
          output error workdir env extra) := opts in
  let partition :=
    if is_empty partition && negb (is_empty (Config.DefaultPartition config))
    then Config.DefaultPartition config else partition in
  let nodes :=
    if (nodes =? 0)%Z && (Config.DefaultNodes config >? 0)%Z
    then Config.DefaultNodes config else nodes in
  let cpus :=
    if (cpus =? 0)%Z && (Config.DefaultCPUs config >? 0)%Z
    then Config.DefaultCPUs config else cpus in
  let memory :=
    if is_empty memory && negb (is_empty (Config.DefaultMemory config))
    then Config.DefaultMemory config else memory in
  let time :=
    if is_empty time && negb (is_empty (Config.DefaultTime config))
    then Config.DefaultTime config else time in
  let qos :=
    if is_empty qos && negb (is_empty (Config.DefaultQoS config))
    then Config.DefaultQoS config else qos in
  let account :=
    if is_empty account && negb (is_empty (Config.DefaultAccount config))
    then Config.DefaultAccount config else account in
  JobOptions.Make name partition nodes cpus memory time qos account
    output error workdir env extra.

(** ** The rest of the shell ([ExecuteDirectCommand], [AddAlias],
       [RemoveAlias]) *)

(** The errors of [ExecuteDirectCommand]: ["failed to parse command:
    %v"], ["invalid command: %v"], and the error of [Registry.Execute]
    as it is. *)
Inductive direct_error :=
| DirectParseFailed (e : parse_error)
| DirectInvalid (e : validation_error)
| DirectDispatch (e : dispatch_error).

Definition ExecuteDirectCommand (rt : runtime) (s : Shell) (command : string)
  : Shell * option direct_error * list event :=
  match ParseCommand command with
  | Err e => (s, Some (DirectParseFailed e), [])
  | Ok cmd =>
      match ValidateCommand cmd with
      | Err e => (s, Some (DirectInvalid e), [])
      | Ok _ =>
          let '(st', err, evs) :=
            Registry_Execute rt (commands s) (client s) cmd (state s) in
          (MkShell st' (client s) (commands s), DirectDispatch <$> err, evs)
      end
  end.




(** The events of [executeCommand] that are not reports of an error. *)
Definition did (ev : shell_event) : option event :=
  match ev with
  | Did e => Some e
  | Failed _ => None
  end.



(** ** Formatting ([utils.stripAnsiCodes], [FormatJobState],
       [FormatNodeState]) *)







(** ** The command [submit] ([SubmitCommand.Execute]) *)

(** The error of a handler: its usage line, or the error of the client
    with the words the handler puts in front of it. *)
Inductive handler_error :=
| UsageError (usage : string)
| ClientError (context : string) (e : run_error).

Definition SubmitCommand_Execute (rt : runtime) (c : Client) (cmd : Command)
  : option handler_error * list event :=
  match Args cmd with
  | [] => (Some (UsageError "usage: submit <script>"), [])
  | script :: _ =>
      let jobOpts := parseJobOptions (range_map rt (Options cmd)) in
      let '(result, err, evs) := SubmitJob rt c script (Some jobOpts) in
      match err with
      | Some e => (Some (ClientError "failed to submit job" e), evs)
      | None =>
          (None,
           evs ++ (if negb (is_empty (Output result))
                   then [EvPrint (Output result)] else []))
      end
  end.

(* ===================================================================== *)
(** * Part II: the properties                                             *)
(* ===================================================================== *)

(** ** Strings *)

Lemma is_empty_true s : is_empty s = true <-> s = EmptyString.
Proof. destruct s; simpl; split; congruence. Qed.

Lemma is_empty_false s : is_empty s = false <-> s <> EmptyString.
Proof. destruct s; simpl; split; congruence. Qed.

Lemma append_nil t : EmptyString +:+ t = t.
Proof. reflexivity. Qed.

Lemma append_cons a s t : String a s +:+ t = String a (s +:+ t).
Proof. reflexivity. Qed.


Lemma app_assoc_s (a b c : string) : (a +:+ b) +:+ c = a +:+ (b +:+ c).
Proof. induction a; rewrite ?append_cons, ?append_nil; congruence. Qed.

Lemma WriteRune_not_empty b c : is_empty (WriteRune b c) = false.
Proof. destruct b; reflexivity. Qed.



(** ** The tokenizer *)






Lemma emit_err cur r e : emit cur r = Err e <-> r = Err e.
Proof. destruct r; simpl; split; congruence. Qed.


(** A pending escape at the end of the input leaves the result of
    [tokenize_finish] as it was. *)
Lemma tokenize_finish_escaped ts cur inq q esc :
  tokenize_finish (TokState ts cur inq q esc) =
  tokenize_finish (TokState ts cur inq q false).
Proof. reflexivity. Qed.





(** ** The parser *)

Lemma lookup_at_length {A} (pre : list A) x suf :
  (pre ++ x :: suf) !! length pre = Some x.
Proof. by rewrite list_lookup_middle. Qed.

Lemma lookup_after_length {A} (pre : list A) x suf :
  (pre ++ x :: suf) !! (length pre + 1)%nat = suf !! 0%nat.
Proof.
  rewrite (cons_middle x pre suf), app_assoc.
  replace (length pre + 1)%nat with (length (pre ++ [x]) + 0)%nat
    by (rewrite length_app; simpl; lia).
  by rewrite lookup_app_r, Nat.add_0_r, Nat.sub_diag by lia.
Qed.

(** The index loop of [ParseCommand], started at the token of index
    [length pre] with enough fuel for the tokens that are left, adds to
    the command the arguments and the options of the items of these
    tokens. *)
Lemma parse_loop_classify fuel : forall pre suf cmd,
  (length suf <= fuel)%nat ->
  parse_loop (pre ++ suf) fuel (length pre) cmd =
  MkCommand (Name cmd) (Args cmd ++ spec_args (classify suf))
            (foldl item_insert (Options cmd) (classify suf)).
Proof.
  induction fuel as [|fuel IH]; intros pre suf [name args opts] Hlen.
  - destruct suf; simpl in *; [|lia]. by rewrite app_nil_r.
  - destruct suf as [|t rest]; cbn [parse_loop].
    + rewrite decide_False by (rewrite app_nil_r; lia).
      simpl. by rewrite app_nil_r.
    + rewrite decide_True by (rewrite length_app; simpl; lia).
      rewrite lookup_at_length. cbv zeta. cbn [default from_option id classify].
      destruct (HasPrefix t dash) eqn:Ht.
      * rewrite lookup_after_length.
        destruct rest as [|v rest'].
        -- rewrite bool_decide_eq_false_2 by (rewrite length_app; simpl; lia).
           cbn [andb].
           replace (pre ++ [t]) with ((pre ++ [t]) ++ []) by apply app_nil_r.
           replace (length pre + 1)%nat with (length (pre ++ [t]))
             by (rewrite length_app; simpl; lia).
           rewrite IH by (simpl; lia). simpl. by rewrite app_nil_r.
        -- rewrite bool_decide_eq_true_2 by (rewrite length_app; simpl; lia).
           cbn [andb lookup list_lookup default from_option id].
           destruct (HasPrefix v dash) eqn:Hv; cbn [negb].
           ++ rewrite (cons_middle t pre (v :: rest')), app_assoc.
              replace (length pre + 1)%nat with (length (pre ++ [t]))
                by (rewrite length_app; simpl; lia).
              rewrite IH by (simpl in *; lia). done.
           ++ replace (pre ++ t :: v :: rest') with ((pre ++ [t; v]) ++ rest')
                by (by rewrite <- app_assoc).
              replace (length pre + 1 + 1)%nat with (length (pre ++ [t; v]))
                by (rewrite length_app; simpl; lia).
              rewrite IH by (simpl in *; lia). done.
      * rewrite (cons_middle t pre rest), app_assoc.
        replace (length pre + 1)%nat with (length (pre ++ [t]))
          by (rewrite length_app; simpl; lia).
        rewrite IH by (simpl in *; lia). simpl.
        by rewrite <- app_assoc.
Qed.

Lemma last_omap_cons {A B} (f : A -> option B) x l :
  last (omap f (x :: l)) =
  match last (omap f l) with
  | Some v => Some v
  | None => f x
  end.
Proof.
  cbn [omap list_omap]. destruct (f x) as [y|]; [|by destruct (last _)].
  simpl. rewrite last_cons. by destruct (last _).
Qed.

(** The value of the last write to [k] wins. *)
Lemma foldl_item_insert_lookup k its : forall opts,
  foldl item_insert opts its !! k =
  match spec_option k its with
  | Some v => Some v
  | None => opts !! k
  end.
Proof.
  unfold spec_option.
  induction its as [|it its IH]; intros opts; [done|].
  rewrite last_omap_cons. cbn [foldl]. rewrite IH.
  destruct (last (omap (item_value k) its)); [done|].
  destruct it as [k' v|a]; cbn [item_value item_insert]; [|done].
  destruct (decide (k' = k)) as [->|Hne].
  - by rewrite lookup_insert_eq.
  - by rewrite lookup_insert_ne.
Qed.

Lemma ParseCommand_tokens line name rest :
  tokenize (TrimSpace line) = Ok (name :: rest) ->
  ParseCommand line =
  Ok (MkCommand name (spec_args (classify rest))
        (foldl item_insert ∅ (classify rest))).
Proof.
  intros Htok. unfold ParseCommand. cbv zeta.
  destruct (is_empty (TrimSpace line)) eqn:He.
  { apply is_empty_true in He. rewrite He in Htok. discriminate. }
  rewrite Htok. rewrite decide_False by (simpl; lia).
  cbn [lookup list_lookup default from_option id].
  change (name :: rest) with ([name] ++ rest) at 1.
  change 1%nat with (length [name]) at 1.
  rewrite parse_loop_classify by (simpl; lia). done.
Qed.



(** ** Validation *)

Lemma Split_length s c : length (Split s c) = S (count_char c s).
Proof.
  induction s as [|a s IH]; [done|]. cbn [Split count_char].
  destruct (Ascii.eqb a c); simpl; [by rewrite IH|].
  destruct (Split s c); simpl in *; lia.
Qed.

Lemma Contains_count s c : Contains s c = bool_decide (0 < count_char c s)%nat.
Proof.
  induction s as [|a s IH]; [done|]. cbn [Contains count_char].
  destruct (Ascii.eqb a c); simpl; [done|]. by rewrite IH.
Qed.

Lemma String_length_pos s : (0 < String.length s)%nat <-> s <> EmptyString.
Proof. destruct s; simpl; split; intros; try congruence; try lia. Qed.

(** What [isValidTimeFormat] accepts. *)
Lemma isValidTimeFormat_shape v : isValidTimeFormat v = true <-> time_shape v.
Proof.
  unfold isValidTimeFormat, time_shape. cbv zeta.
  rewrite Contains_count, Split_length.
  destruct (decide (0 < count_char colon v)%nat) as [Hc|Hc].
  - rewrite bool_decide_eq_true_2 by done.
    destruct (decide (count_char colon v <= 2)%nat) as [H2|H2].
    + rewrite bool_decide_eq_false_2, bool_decide_eq_false_2 by lia.
      simpl. split; [intros _; left; lia | done].
    + rewrite (bool_decide_eq_true_2 (3 < _)%nat) by lia.
      rewrite orb_true_r. split; [done | intros [?|[? _]]; lia].
  - rewrite bool_decide_eq_false_2 by done.
    destruct (all_digits v) eqn:Hd.
    + rewrite bool_decide_eq_true, String_length_pos.
      split; [intros ?; right; split; [lia | done] | intros [?|(_ & ? & _)]; [lia | done]].
    + split; [done | intros [?|(_ & _ & ?)]; [lia | done]].
Qed.






(** ** The projection of options to job parameters *)

Section JobOptionsFacts.
Variable digit : ascii -> bool.

Local Abbreviation step := (jobOptions_step digit).
Local Abbreviation pint := (parseInt_with digit).

Lemma is_one_of_true opt names :
  is_one_of opt names = true <-> opt ∈ names.
Proof. unfold is_one_of. apply bool_decide_eq_true. Qed.

Lemma is_one_of_false opt names :
  is_one_of opt names = false <-> opt ∉ names.
Proof. unfold is_one_of. apply bool_decide_eq_false. Qed.

(** Membership in the lists of option names of the [switch]. *)
Ltac pick_name := solve [repeat first [left; reflexivity | right]].

Ltac names_solver :=
  unfold recognized_options, nodes_keys, cpus_keys in *;
  rewrite ?elem_of_app, ?elem_of_cons, ?elem_of_nil in *;
  try (let H := fresh in intros H);
  repeat match goal with
         | H : _ \/ _ |- _ => destruct H
         | H : False |- _ => destruct H
         end;
  simplify_eq;
  first [ pick_name
        | match goal with
          | H : ~ _ |- _ => solve [exfalso; apply H; pick_name]
          end ].

(** Follow the [switch] case by case, outermost first. *)
Ltac switch_case opt names :=
  let E := fresh "E" in
  destruct (is_one_of opt names) eqn:E;
  [apply is_one_of_true in E | apply is_one_of_false in E].

Ltac switch_cases opt tac :=
  switch_case opt ["-J"; "--job-name"]; [tac|];
  switch_case opt ["-p"; "--partition"]; [tac|];
  switch_case opt ["-N"; "--nodes"]; [tac|];
  switch_case opt ["-c"; "--cpus-per-task"]; [tac|];
  switch_case opt ["--mem"]; [tac|];
  switch_case opt ["-t"; "--time"]; [tac|];
  switch_case opt ["--qos"]; [tac|];
  switch_case opt ["-A"; "--account"]; [tac|];
  switch_case opt ["-o"; "--output"]; [tac|];
  switch_case opt ["-e"; "--error"]; [tac|];
  switch_case opt ["-D"; "--chdir"]; [tac|].


(** Each entry appends its own extra arguments, and only an
    unrecognized option has any. *)
Lemma step_ExtraArgs jo kv :
  JobOptions.ExtraArgs (step jo kv) = JobOptions.ExtraArgs jo ++ extra_of kv.
Proof.
  destruct jo, kv as [opt value]. unfold jobOptions_step, extra_of.
  cbn [fst snd].
  switch_cases opt
    ltac:(rewrite bool_decide_eq_true_2 by names_solver;
          try (destruct (pint value >? 0)%Z); simpl; by rewrite app_nil_r).
  rewrite bool_decide_eq_false_2 by names_solver.
  by destruct (negb (is_empty value)).
Qed.

(** Only the two spellings of the node count write [Nodes], and only
    with a positive number. *)
Lemma step_Nodes jo kv :
  JobOptions.Nodes (step jo kv) =
  if bool_decide (kv.1 ∈ nodes_keys) && (pint kv.2 >? 0)%Z
  then pint kv.2 else JobOptions.Nodes jo.
Proof.
  destruct jo, kv as [opt value]. unfold jobOptions_step.
  cbn [fst snd].
  switch_cases opt
    ltac:(try (rewrite bool_decide_eq_false_2 by names_solver);
          try (rewrite bool_decide_eq_true_2 by names_solver);
          try (destruct (pint value >? 0)%Z); simpl; done).
  rewrite bool_decide_eq_false_2 by names_solver.
  by destruct (negb (is_empty value)).
Qed.


Lemma foldl_ExtraArgs order : forall jo,
  JobOptions.ExtraArgs (foldl step jo order) =
  JobOptions.ExtraArgs jo ++ concat (map extra_of order).
Proof.
  induction order as [|kv order IH]; intros jo; simpl.
  - by rewrite app_nil_r.
  - by rewrite IH, step_ExtraArgs, <- app_assoc.
Qed.

Lemma foldl_Nodes_zero order : forall jo,
  JobOptions.Nodes jo = 0%Z ->
  (forall k v, (k, v) ∈ order -> k ∈ nodes_keys -> (pint v <= 0)%Z) ->
  JobOptions.Nodes (foldl step jo order) = 0%Z.
Proof.
  induction order as [|[k v] order IH]; intros jo Hz Hall; [done|].
  simpl. apply IH.
  - rewrite step_Nodes. cbn [fst snd].
    destruct (bool_decide (k ∈ nodes_keys)) eqn:Hk; [|done].
    apply bool_decide_eq_true in Hk.
    assert (pint v <= 0)%Z by (apply (Hall k v); [left | done]).
    simpl. by assert ((pint v >? 0)%Z = false) as -> by lia.
  - intros k' v' Hin. apply Hall. by right.
Qed.



(** A value with a character that is not a digit parses to zero. *)
Lemma parseInt_loop_not_digits s : forall acc,
  forallb digit (list_ascii_of_string s) = false -> parseInt_loop digit s acc = 0%Z.
Proof.
  induction s as [|c s IH]; intros acc; simpl; [done|].
  destruct (digit c); simpl; [apply IH | done].
Qed.
End JobOptionsFacts.

Lemma all_digits_forallb s :
  all_digits s = forallb IsDigit (list_ascii_of_string s).
Proof. induction s as [|c s IH]; simpl; [done|]. by destruct (IsDigit c). Qed.

Lemma not_a_positive_count_parseInt v :
  not_a_positive_count v -> (parseInt v <= 0)%Z.
Proof.
  intros [Hn|Hz]; [|lia]. unfold numeric in Hn.
  destruct v as [|c v]; [done|]. simpl in Hn.
  unfold parseInt, parseInt_with.
  rewrite parseInt_loop_not_digits; [done|].
  by rewrite <- all_digits_forallb.
Qed.

Lemma enumerates_lookup order options k v :
  enumerates order options -> (k, v) ∈ order <-> options !! k = Some v.
Proof. intros He. unfold enumerates in He. rewrite He. apply elem_of_map_to_list. Qed.


Lemma enumerates_map_to_list options : enumerates (map_to_list options) options.
Proof. unfold enumerates. reflexivity. Qed.

Lemma occurs_in_concat_map {A B} (f : A -> list B) x l :
  x ∈ l -> occurs_in (f x) (concat (map f l)).
Proof.
  intros (l1 & l2 & ->)%list_elem_of_split.
  exists (concat (map f l1)), (concat (map f l2)).
  by rewrite map_app, concat_app.
Qed.

(** The projection of run.go and the one of parser.go are the same
    function of the enumeration order. *)
Lemma ParseJobOptions_parseJobOptions order :
  ParseJobOptions order = parseJobOptions order.
Proof. reflexivity. Qed.




(** ** The history manager: the invariant *)

Lemma slice_from_Some {A} (s : list A) low :
  (0 <= low <= Z.of_nat (length s))%Z ->
  slice_from s low = Some (drop (Z.to_nat low) s).
Proof. intros H. unfold slice_from. by rewrite decide_True. Qed.

(** With a maximum that is not negative, [keep_last] does not panic,
    keeps a suffix, and keeps at most [max] entries. *)
Lemma keep_last_spec max es :
  (0 <= max)%Z ->
  exists n,
    keep_last max es = Some (drop n es)
    /\ (Z.of_nat (length (drop n es)) <= max)%Z
    /\ (n = 0%nat \/ (Z.of_nat (length (drop n es)) = max)%Z).
Proof.
  intros Hmax. unfold keep_last.
  destruct (decide (Z.of_nat (length es) > max)%Z) as [Hgt|Hle].
  - exists (Z.to_nat (Z.of_nat (length es) - max)).
    rewrite slice_from_Some by lia.
    rewrite length_drop. split; [done|]. split; [lia | right; lia].
  - exists 0%nat. rewrite drop_0. split; [done|]. split; [lia | by left].
Qed.

Lemma no_repeat_cons e es :
  no_repeat (e :: es) <->
  (forall e', head es = Some e' -> EntryCommand e <> EntryCommand e') /\ no_repeat es.
Proof.
  destruct es as [|e2 es]; simpl.
  - split; [intros _; split; [intros ? [=] | done] | done].
  - split.
    + intros [Hne Hr]. split; [by intros ? [= <-] | done].
    + intros [Hne Hr]. split; [by apply Hne | done].
Qed.

Lemma no_repeat_tail e es : no_repeat (e :: es) -> no_repeat es.
Proof. rewrite no_repeat_cons. by intros [_ ?]. Qed.

Lemma no_repeat_drop n : forall es, no_repeat es -> no_repeat (drop n es).
Proof.
  induction n as [|n IH]; intros es Hr; [by rewrite drop_0|].
  destruct es as [|e es]; [done|]. simpl. apply IH. by eapply no_repeat_tail.
Qed.

Lemma no_repeat_snoc es e :
  no_repeat es ->
  (forall e', last es = Some e' -> EntryCommand e' <> EntryCommand e) ->
  no_repeat (es ++ [e]).
Proof.
  induction es as [|e1 es IH]; intros Hr Hlast; [done|].
  change ((e1 :: es) ++ [e]) with (e1 :: (es ++ [e])).
  apply no_repeat_cons in Hr as [Hhd Hr].
  apply no_repeat_cons. split.
  - intros e' He'. destruct es as [|e2 es]; simpl in He'.
    + injection He' as <-. by apply Hlast.
    + injection He' as <-. by apply Hhd.
  - apply IH; [done|]. intros e' He'. apply Hlast.
    destruct es; [done|]. by rewrite last_cons, He'.
Qed.

Lemma entries_ok_drop n es : entries_ok es -> entries_ok (drop n es).
Proof.
  intros [Hne Hr]. split; [by apply Forall_drop | by apply no_repeat_drop].
Qed.

Lemma entries_ok_nil : entries_ok [].
Proof. by split. Qed.

Lemma String_eqb_false_ne (a b : string) : String.eqb a b = false -> a <> b.
Proof. by intros H%String.eqb_neq. Qed.

(** What [Add] does, case by case. *)
Lemma Add_cases h command success duration now :
  (0 <= maxSize h)%Z ->
  let entry := MkEntry (TrimSpace command) now success duration in
  (TrimSpace command = EmptyString
   /\ Add h command success duration now = Some h)
  \/ (TrimSpace command <> EmptyString
      /\ (exists e, last (entries h) = Some e /\ EntryCommand e = TrimSpace command)
      /\ Add h command success duration now = Some h)
  \/ (TrimSpace command <> EmptyString
      /\ (forall e, last (entries h) = Some e -> EntryCommand e <> TrimSpace command)
      /\ exists n,
          Add h command success duration now =
          Some (MkHistory (drop n (entries h ++ [MkEntry (TrimSpace command) now success duration])) (maxSize h) (filePath h))
          /\ (Z.of_nat (length (drop n (entries h ++ [MkEntry (TrimSpace command) now success duration]))) <= maxSize h)%Z
          /\ (n = 0%nat
              \/ Z.of_nat (length (drop n (entries h ++ [MkEntry (TrimSpace command) now success duration]))) = maxSize h)).
Proof.
  intros Hmax entry. subst entry. unfold Add. cbv zeta. cbn [EntryCommand].
  destruct (is_empty (TrimSpace command)) eqn:He.
  { left. by apply is_empty_true in He. }
  apply is_empty_false in He. right.
  destruct (last (entries h)) as [e|] eqn:Hlast.
  - destruct (String.eqb (EntryCommand e) (TrimSpace command)) eqn:Heq.
    + left. split; [done|]. split.
      * exists e. split; [done|]. by apply String.eqb_eq.
      * rewrite bool_decide_eq_true_2; [done|].
        destruct (entries h); [done | simpl; lia].
    + right. split; [done|]. split.
      * intros e' [= <-]. by apply String_eqb_false_ne.
      * rewrite andb_false_r.
        destruct (keep_last_spec (maxSize h) (entries h ++ [MkEntry (TrimSpace command) now success duration]) Hmax)
          as (n & -> & Hlen & Hn).
        exists n. by repeat split.
  - right. split; [done|]. split; [by intros e' [=]|].
    rewrite andb_false_r.
    destruct (keep_last_spec (maxSize h) (entries h ++ [MkEntry (TrimSpace command) now success duration]) Hmax)
      as (n & -> & Hlen & Hn).
    exists n. by repeat split.
Qed.

Lemma Add_entries_ok h command success duration now h' :
  (0 <= maxSize h)%Z ->
  entries_ok (entries h) ->
  Add h command success duration now = Some h' ->
  entries_ok (entries h').
Proof.
  intros Hmax Hok HAdd.
  destruct (Add_cases h command success duration now Hmax)
    as [[_ H]|[(_ & _ & H)|(Hne & Hlast & n & H & _)]];
    rewrite H in HAdd; injection HAdd as <-; [done..|].
  cbn [entries]. apply entries_ok_drop. destruct Hok as [Hall Hr]. split.
  - apply Forall_app. split; [done|]. by apply Forall_singleton.
  - apply no_repeat_snoc; [done|]. intros e' He'. by apply Hlast.
Qed.

Lemma Add_bound h command success duration now h' :
  (0 <= maxSize h)%Z ->
  (Z.of_nat (length (entries h)) <= maxSize h)%Z ->
  Add h command success duration now = Some h' ->
  (Z.of_nat (length (entries h')) <= maxSize h')%Z
  /\ maxSize h' = maxSize h /\ filePath h' = filePath h.
Proof.
  intros Hmax Hlen HAdd.
  destruct (Add_cases h command success duration now Hmax)
    as [[_ H]|[(_ & _ & H)|(Hne & Hlast & n & H & Hb & _)]];
    rewrite H in HAdd; injection HAdd as <-; done.
Qed.

Lemma Load_cases h content :
  (0 <= maxSize h)%Z ->
  (exists e, scan_lines content = Err e /\ Load h (Some content) = Some (h, Some e))
  \/ (exists texts n,
        scan_lines content = Ok texts
        /\ Load h (Some content) =
           Some (MkHistory (drop n (decode_lines texts)) (maxSize h) (filePath h), None)
        /\ (Z.of_nat (length (drop n (decode_lines texts))) <= maxSize h)%Z
        /\ (n = 0%nat
            \/ Z.of_nat (length (drop n (decode_lines texts))) = maxSize h)).
Proof.
  intros Hmax. unfold Load.
  destruct (scan_lines content) as [texts|e]; [|left; by exists e].
  right. exists texts.
  destruct (keep_last_spec (maxSize h) (decode_lines texts) Hmax)
    as (n & -> & Hlen & Hn).
  exists n. by repeat split.
Qed.

(** Every operation keeps the configured maximum and the path, and
    leaves at most [max] entries. *)
Lemma apply_op_bound h op h' :
  (0 <= maxSize h)%Z ->
  (Z.of_nat (length (entries h)) <= maxSize h)%Z ->
  apply_op h op = Some h' ->
  (Z.of_nat (length (entries h')) <= maxSize h')%Z
  /\ maxSize h' = maxSize h /\ filePath h' = filePath h.
Proof.
  intros Hmax Hlen Hop. destruct op as [c s d n|[content|]|]; cbn [apply_op] in Hop.
  - by eapply Add_bound.
  - destruct (Load_cases h content Hmax)
      as [(e & _ & H)|(texts & n & _ & H & Hb & _)];
      rewrite H in Hop; simpl in Hop; injection Hop as <-; done.
  - simpl in Hop. injection Hop as <-. done.
  - injection Hop as <-. simpl. repeat split; lia.
Qed.


Lemma reachable_with_bound ok_file homeDir max h :
  (0 <= max)%Z ->
  reachable_with ok_file homeDir max h ->
  maxSize h = max /\ (Z.of_nat (length (entries h)) <= max)%Z.
Proof.
  intros Hmax. induction 1 as [|h op h' Hr [Hm Hl] Hok Hop].
  - simpl. split; [done | lia].
  - destruct (apply_op_bound h op h') as (Hb & Hm' & _); [lia | lia | done |].
    split; [congruence | lia].
Qed.

Lemma reachable_with_entries_ok homeDir max h :
  (0 <= max)%Z ->
  reachable_with file_ok homeDir max h ->
  entries_ok (entries h).
Proof.
  intros Hmax. induction 1 as [|h op h' Hr IH Hok Hop].
  - apply entries_ok_nil.
  - destruct (reachable_with_bound _ _ _ _ Hmax Hr) as [Hm _].
    destruct op as [c s d n|[content|]|]; cbn [apply_op] in Hop.
    + apply (Add_entries_ok h c s d n h'); [lia | done | done].
    + simpl in Hok. unfold file_ok in Hok.
      destruct (Load_cases h content ltac:(lia))
        as [(e & _ & H)|(texts & n & Hs & H & _)];
        rewrite H in Hop; simpl in Hop; injection Hop as <-; [done|].
      rewrite Hs in Hok. cbn [entries]. by apply entries_ok_drop.
    + simpl in Hop. by injection Hop as <-.
    + injection Hop as <-. apply entries_ok_nil.
Qed.



Lemma Add_first homeDir max c s d n :
  (1 <= max)%Z -> TrimSpace c <> EmptyString ->
  Add (NewHistory homeDir max) c s d n =
  Some (MkHistory [MkEntry (TrimSpace c) n s d] max (homeDir +:+ "/.slsh_history")).
Proof.
  intros Hmax Hne. unfold Add, NewHistory. cbv zeta.
  cbn [EntryCommand entries maxSize filePath].
  apply is_empty_false in Hne. rewrite Hne. simpl.
  unfold keep_last. simpl. by rewrite decide_False by lia.
Qed.


Lemma in_int64_check z :
  (- 2 ^ 63 <=? z)%Z && (z <? 2 ^ 63)%Z = true -> in_int64 z.
Proof. unfold in_int64. intros [H1 H2]%andb_true_iff. lia. Qed.

Lemma run_ops_reachable ok_file homeDir max ops : forall h h',
  reachable_with ok_file homeDir max h ->
  Forall (op_ok ok_file) ops ->
  run_ops h ops = Some h' ->
  reachable_with ok_file homeDir max h'.
Proof.
  induction ops as [|op ops IH]; intros h h' Hr Hok Hrun; simpl in Hrun.
  - by injection Hrun as <-.
  - apply Forall_cons in Hok as [Hop Hok].
    destruct (apply_op h op) as [h1|] eqn:H1; [|done]. simpl in Hrun.
    apply (IH h1); [|done|done]. by apply (reach_step _ _ _ h op h1).
Qed.

Lemma session_ops_ok ok_file : Forall (op_ok ok_file) session_ops.
Proof.
  unfold session_ops.
  repeat (apply Forall_cons; split; [split; by apply in_int64_check|]).
  apply Forall_nil. done.
Qed.



(** ** Dispatch *)

Lemma isSlurmCommand_true name :
  existsb (String.eqb name) slurmCommands = true <-> name ∈ slurmCommands.
Proof.
  rewrite existsb_exists. split.
  - intros (x & Hin & ->%String.eqb_eq). by apply list_elem_of_In.
  - intros Hin. exists name. split; [by apply list_elem_of_In | apply String.eqb_refl].
Qed.

Lemma isSlurmCommand_false name :
  existsb (String.eqb name) slurmCommands = false <-> name ∉ slurmCommands.
Proof.
  rewrite <- isSlurmCommand_true.
  destruct (existsb (String.eqb name) slurmCommands); split; congruence.
Qed.

(** When [cmd.Run] reports no error. *)
Lemma cmd_Run_None r : cmd_Run r = None <-> ended r = Exited 0.
Proof.
  unfold cmd_Run. destruct (ended r) as [|code]; [split; congruence|].
  destruct (Z.eqb_spec code 0) as [->|Hne]; split; congruence.
Qed.

Lemma cmd_Run_nonzero r code :
  ended r = Exited code -> code <> 0%Z -> cmd_Run r = Some (ExitError code).
Proof.
  intros He Hne. unfold cmd_Run. rewrite He.
  by destruct (Z.eqb_spec code 0).
Qed.


(** What [Registry.Execute] does with a name that has no handler. *)
Lemma Registry_Execute_unregistered rt commands client cmd st :
  commands !! Name cmd = None ->
  Registry_Execute rt commands client cmd st =
  (st, (executeSystemCommand rt client cmd).1, (executeSystemCommand rt client cmd).2).
Proof.
  intros Hn. unfold Registry_Execute. rewrite Hn.
  by destruct (executeSystemCommand rt client cmd).
Qed.

Lemma executeSystemCommand_interactive rt client cmd :
  Name cmd ∉ slurmCommands ->
  executeSystemCommand rt client cmd =
  (InteractiveError <$> cmd_Run (run_child rt Interactive (Name cmd) (buildArgs rt cmd)),
   [EvRun Interactive (Name cmd) (buildArgs rt cmd)]).
Proof.
  intros Hn%isSlurmCommand_false. unfold executeSystemCommand. by rewrite Hn.
Qed.


(** C2, as amended: a command whose name has no handler and is not in
    the allow-list is run through the interactive path, once, with the
    streams of the shell and no timeout, and dispatch returns what
    [cmd.Run] returns: no error exactly when the child ran and exited
    with status zero, an error when the child could not be started and
    also when it exited with a non-zero status. *)
Theorem C2_interactive_path :
  forall rt commands client cmd st,
    commands !! Name cmd = None ->
    Name cmd ∉ slurmCommands ->
    let r := run_child rt Interactive (Name cmd) (buildArgs rt cmd) in
    exists err,
      Registry_Execute rt commands client cmd st =
      (st, err, [EvRun Interactive (Name cmd) (buildArgs rt cmd)])
      /\ (err = None <-> ended r = Exited 0)
      /\ (ended r = StartFailed -> err = Some (InteractiveError StartError))
      /\ (forall code, ended r = Exited code -> code <> 0%Z ->
            err = Some (InteractiveError (ExitError code))).
Proof.
  intros rt commands client cmd st Hreg Hlist r.
  rewrite Registry_Execute_unregistered by done.
  rewrite executeSystemCommand_interactive by done. cbn [fst snd]. fold r.
  eexists. split; [reflexivity|]. split; [|split].
  - rewrite <- cmd_Run_None. destruct (cmd_Run r); simpl; split; congruence.
  - intros He. unfold cmd_Run. by rewrite He.
  - intros code He Hne. by rewrite (cmd_Run_nonzero r code).
Qed.

Lemma C2_interactive_path_witness :
  exists err,
    Registry_Execute rt_children_fail registry_run_status NewClient cmd_vim
      (state (shell_with ∅)) =
    (state (shell_with ∅), err,
     [EvRun Interactive "vim" (buildArgs rt_children_fail cmd_vim)])
    /\ err = Some (InteractiveError (ExitError 1)).
Proof.
  destruct (C2_interactive_path rt_children_fail registry_run_status NewClient
              cmd_vim (state (shell_with ∅)))
    as (err & Hrun & _ & _ & Hcode).
  - reflexivity.
  - unfold slurmCommands. cbn [Name cmd_vim].
    rewrite !elem_of_cons, elem_of_nil. intuition discriminate.
  - exists err. split; [exact Hrun|]. by apply (Hcode 1%Z).
Defined.

(** The claim fails on the code: a child that starts and exits with
    status 1 makes dispatch return an error. *)
Lemma C2_counterexample :
  registry_run_status !! Name cmd_vim = None
  /\ (Name cmd_vim ∉ slurmCommands)
  /\ ended (run_child rt_children_fail Interactive "vim" ["notes.txt"]) = Exited 1
  /\ snd (fst (Registry_Execute rt_children_fail registry_run_status NewClient
                  cmd_vim (state (shell_with ∅))))
     = Some (InteractiveError (ExitError 1)).
Proof.
  split; [reflexivity|]. split; [|split; reflexivity].
  unfold slurmCommands. cbn [Name cmd_vim].
  rewrite !elem_of_cons, elem_of_nil. intuition discriminate.
Qed.




(** ** The shell: aliases and validation before dispatch *)


(** A line whose command fails validation runs nothing. *)
Lemma invalid_line_runs_nothing rt s line elapsed now cmd e s' evs :
  ParseCommand line = Ok cmd ->
  ValidateCommand cmd = Err e ->
  executeCommand rt s line elapsed now = Some (s', evs) ->
  evs = [Failed (InvalidCommand e)] /\ executions evs = [].
Proof.
  intros Hp Hv. unfold executeCommand. rewrite Hp, Hv.
  destruct (record_line _ _ _ _ _ _) as [s1|]; [|done].
  simpl. by intros [= <- <-].
Qed.




(** C3 at its failing input: with the alias [r] for
    [run -N 2 -w node1 hostname], the line [r] is valid as it is typed,
    the command it is replaced with violates the rule on [-N] and [-w],
    and the handler of [run] is invoked with it all the same. *)
Theorem C3_alias_skips_validation :
  dispatched aliases_conflict "r" = Ok cmd_conflict
  /\ ValidateCommand cmd_conflict = Err ConflictingOptions
  /\ forall rt elapsed now,
      snd <$> executeCommand rt (shell_with aliases_conflict) "r" elapsed now
      = Some [Did (EvHandler "run" cmd_conflict)].
Proof.
  split; [reflexivity|]. split; [reflexivity|].
  intros rt elapsed now. reflexivity.
Qed.

(** ** The history manager: the round trip through the file *)

(** *** Characters *)

Lemma all_chars_app p a b :
  all_chars p (a +:+ b) = all_chars p a && all_chars p b.
Proof.
  induction a as [|c a IH]; [done|].
  rewrite append_cons. simpl. by rewrite IH, andb_assoc.
Qed.

Lemma all_chars_impl (p q : ascii -> bool) s :
  (forall c, p c = true -> q c = true) ->
  all_chars p s = true -> all_chars q s = true.
Proof.
  intros Hpq. induction s as [|c s IH]; [done|]. simpl.
  intros [Hc Hs]%andb_true_iff. by rewrite (Hpq c Hc), IH.
Qed.

Lemma Contains_all_chars s sep :
  Contains s sep = negb (all_chars (fun c => negb (Ascii.eqb c sep)) s).
Proof.
  induction s as [|c s IH]; [done|]. simpl. rewrite IH.
  by destruct (Ascii.eqb c sep).
Qed.

Lemma not_Contains s sep :
  all_chars (fun c => negb (Ascii.eqb c sep)) s = true -> Contains s sep = false.
Proof. intros H. by rewrite Contains_all_chars, H. Qed.

Lemma Contains_app a b sep :
  Contains (a +:+ b) sep = Contains a sep || Contains b sep.
Proof.
  induction a as [|c a IH]; [done|].
  rewrite append_cons. simpl. by rewrite IH, orb_assoc.
Qed.


(** *** Cutting at a separator *)

Lemma Cut_app a b sep :
  Contains a sep = false -> Cut (a +:+ String sep b) sep = (a, Some b).
Proof.
  induction a as [|c a IH]; intros Hc.
  - rewrite append_nil. simpl. by rewrite Ascii.eqb_refl.
  - rewrite append_cons. simpl in *.
    apply orb_false_iff in Hc as [Hc1 Hc2]. by rewrite Hc1, IH.
Qed.

Lemma Cut_Some s sep before after :
  Cut s sep = (before, Some after) -> s = before +:+ String sep after.
Proof.
  revert before. induction s as [|c s IH]; intros before; simpl; [done|].
  destruct (Ascii.eqb_spec c sep) as [->|Hne].
  - by intros [= <- <-].
  - destruct (Cut s sep) as [b a] eqn:Hcut. intros [= <- ->].
    rewrite append_cons. f_equal. by apply IH.
Qed.

Lemma Split_app a b sep :
  Contains a sep = false -> Split (a +:+ String sep b) sep = a :: Split b sep.
Proof.
  induction a as [|c a IH]; intros Hc.
  - rewrite append_nil. simpl. by rewrite Ascii.eqb_refl.
  - rewrite append_cons. simpl in *.
    apply orb_false_iff in Hc as [Hc1 Hc2]. by rewrite Hc1, IH.
Qed.

(** *** Trimming *)

Lemma TrimRight_app a b :
  TrimRight b <> EmptyString -> TrimRight (a +:+ b) = a +:+ TrimRight b.
Proof.
  intros Hb. induction a as [|c a IH]; [done|].
  rewrite !append_cons. simpl. rewrite IH.
  destruct (a +:+ TrimRight b) eqn:E.
  - destruct a; [by rewrite append_nil in E | by rewrite append_cons in E].
  - by rewrite andb_false_r.
Qed.

Lemma right_trimmed_suffix a b : right_trimmed (a +:+ b) -> right_trimmed b.
Proof.
  unfold right_trimmed. induction a as [|c a IH]; [done|].
  rewrite append_cons. simpl.
  destruct (isSpace c && is_empty (TrimRight (a +:+ b))); [done|].
  intros [= H]. by apply IH.
Qed.

Lemma TrimRight_idemp s : TrimRight (TrimRight s) = TrimRight s.
Proof.
  induction s as [|c s IH]; [done|]. simpl.
  destruct (isSpace c && is_empty (TrimRight s)) eqn:E; [done|].
  simpl. by rewrite IH, E.
Qed.

Lemma TrimSpace_right_trimmed s : right_trimmed (TrimSpace s).
Proof. apply TrimRight_idemp. Qed.

Lemma dropCR_right_trimmed s : right_trimmed s -> dropCR s = s.
Proof.
  unfold right_trimmed. induction s as [|c s IH]; [done|]. simpl.
  destruct s as [|c' s].
  - simpl. destruct (Ascii.eqb_spec c creturn) as [->|]; [done|done].
  - destruct (isSpace c && is_empty (TrimRight (String c' s))); [done|].
    intros [= H]. f_equal. by apply IH.
Qed.

Lemma TrimSpace_no_space s :
  all_chars (fun c => negb (isSpace c)) s = true -> TrimSpace s = s.
Proof.
  intros H. unfold TrimSpace.
  assert (TrimLeft s = s) as ->.
  { destruct s as [|c s]; [done|]. simpl in *.
    apply andb_true_iff in H as [Hc _]. by destruct (isSpace c). }
  induction s as [|c s IH]; [done|]. simpl in *.
  apply andb_true_iff in H as [Hc Hs]. rewrite IH by done.
  by destruct (isSpace c).
Qed.

(** *** Numbers and booleans in the file *)

Lemma digit_not_special c :
  IsDigit c = true ->
  isSpace c = false /\ Ascii.eqb c pipe = false /\ Ascii.eqb c newline = false
  /\ Ascii.eqb c "+" = false /\ Ascii.eqb c "-" = false.
Proof. destruct c as [[] [] [] [] [] [] [] []]; intros H; try done. Qed.

Lemma uint_digits d : all_chars IsDigit (NilEmpty.string_of_uint d) = true.
Proof. induction d; simpl; auto. Qed.

Lemma uint_digits_zero d : all_chars IsDigit (NilZero.string_of_uint d) = true.
Proof. destruct d; try apply uint_digits. reflexivity. Qed.

Lemma uint_string_not_empty d : NilZero.string_of_uint d <> EmptyString.
Proof. by destruct d. Qed.

Lemma span_all p s : all_chars p s = true -> span p s = (s, EmptyString).
Proof.
  induction s as [|c s IH]; [done|]. simpl.
  intros [Hc Hs]%andb_true_iff. by rewrite Hc, IH.
Qed.

Lemma SkipSpace_id c s : isSpace c = false -> SkipSpace (String c s) = Some (String c s).
Proof.
  intros Hc. simpl. rewrite Hc.
  destruct (Ascii.eqb_spec c newline) as [->|]; [done|done].
Qed.

(** The digits [%d] prints for a number that is not negative, and the
    number they stand for. *)
Lemma to_uint_value z :
  (0 <= z)%Z ->
  exists d, Z.to_int z = Decimal.Pos d /\ d <> Decimal.Nil /\ Z.of_uint d = z.
Proof.
  intros Hz. destruct z as [|p|p]; [| |lia].
  - by exists (Decimal.D0 Decimal.Nil).
  - exists (Pos.to_uint p). split; [done|].
    split; [apply DecimalPos.Unsigned.to_uint_nonnil|].
    unfold Z.of_uint. by rewrite DecimalPos.Unsigned.of_to.
Qed.

Lemma Z_of_uint_nonneg d : (0 <= Z.of_uint d)%Z.
Proof. unfold Z.of_uint. lia. Qed.

Lemma ParseInt_digits d :
  d <> Decimal.Nil ->
  (Z.of_uint d < int64_cutoff)%Z ->
  ParseInt (NilZero.string_of_uint d) = Some (Z.of_uint d).
Proof.
  intros Hd Hr. unfold ParseInt.
  destruct (NilZero.string_of_uint d) as [|c s] eqn:Hs.
  { by apply uint_string_not_empty in Hs. }
  pose proof (uint_digits_zero d) as Hdig. rewrite Hs in Hdig. simpl in Hdig.
  apply andb_true_iff in Hdig as [Hc _].
  destruct (digit_not_special c Hc) as (_ & _ & _ & -> & ->).
  rewrite <- Hs, NilZero.usu by done.
  rewrite Z.geb_leb. by rewrite (proj2 (Z.leb_gt _ _)) by lia.
Qed.

Lemma ParseInt_minus d :
  d <> Decimal.Nil ->
  (Z.of_uint d <= int64_cutoff)%Z ->
  ParseInt (String "-" (NilZero.string_of_uint d)) = Some (- Z.of_uint d)%Z.
Proof.
  intros Hd Hr. unfold ParseInt.
  change (Ascii.eqb "-" "+") with false. change (Ascii.eqb "-" "-") with true.
  cbv iota. rewrite NilZero.usu by done.
  rewrite Z.gtb_ltb. by rewrite (proj2 (Z.ltb_ge _ _)) by lia.
Qed.

(** [%d] then [Sscanf] with [%d] gives the number back. *)
Lemma Sscanf_d_FormatInt z : in_int64 z -> Sscanf_d (FormatInt z) = Some z.
Proof.
  intros [Hlo Hhi]. unfold FormatInt.
  destruct (decide (0 <= z)%Z) as [Hz|Hz].
  - destruct (to_uint_value z Hz) as (d & -> & Hd & Hv). simpl.
    pose proof (uint_digits_zero d) as Hdig.
    destruct (NilZero.string_of_uint d) as [|c s] eqn:Hs.
    { by apply uint_string_not_empty in Hs. }
    pose proof Hdig as Hdig'. simpl in Hdig'.
    apply andb_true_iff in Hdig' as [Hc _].
    destruct (digit_not_special c Hc) as (Hsp & _ & _ & Hplus & Hminus).
    unfold Sscanf_d. rewrite SkipSpace_id by done.
    rewrite Hplus, Hminus. cbn [orb].
    rewrite span_all
      by (eapply all_chars_impl; [|exact Hdig]; by intros ? ->).
    cbn [is_empty]. rewrite append_nil, <- Hs.
    rewrite ParseInt_digits by (done || (unfold int64_cutoff; lia)).
    by rewrite Hv.
  - destruct z as [|p|p]; [lia|lia|].
    assert (Z.to_int (Z.neg p) = Decimal.Neg (Pos.to_uint p)) as -> by done.
    destruct (to_uint_value (Z.pos p) ltac:(lia)) as (d & Hd' & Hd & Hv).
    assert (d = Pos.to_uint p) as <- by (simpl in Hd'; congruence).
    cbn [NilZero.string_of_int].
    pose proof (uint_digits_zero d) as Hdig.
    unfold Sscanf_d. rewrite SkipSpace_id by done.
    change (Ascii.eqb "-" "+" || Ascii.eqb "-" "-") with true. cbv iota.
    rewrite span_all
      by (eapply all_chars_impl; [|exact Hdig]; by intros ? ->).
    destruct (NilZero.string_of_uint d) as [|c s] eqn:Hs.
    { by apply uint_string_not_empty in Hs. }
    cbn [is_empty]. rewrite append_cons, append_nil, <- Hs.
    rewrite ParseInt_minus by (done || (unfold int64_cutoff; lia)).
    rewrite Hv. done.
Qed.

Lemma Sscanf_t_FormatBool b : Sscanf_t (FormatBool b) = Some b.
Proof. by destruct b. Qed.

(** The characters of a number as [%d] prints it. *)
Lemma FormatInt_chars z :
  all_chars (fun c => IsDigit c || Ascii.eqb c "-") (FormatInt z) = true
  /\ FormatInt z <> EmptyString.
Proof.
  unfold FormatInt. destruct (Z.to_int z) as [d|d]; cbn [NilZero.string_of_int].
  - split; [|apply uint_string_not_empty].
    eapply all_chars_impl; [|apply uint_digits_zero]. by intros ? ->.
  - split; [|done]. simpl.
    eapply all_chars_impl; [|apply uint_digits_zero]. by intros ? ->.
Qed.

Lemma number_char_plain c :
  IsDigit c || Ascii.eqb c "-" = true ->
  isSpace c = false /\ Ascii.eqb c pipe = false /\ Ascii.eqb c newline = false.
Proof. destruct c as [[] [] [] [] [] [] [] []]; intros H; try done. Qed.

Lemma FormatInt_no sep z :
  sep = pipe \/ sep = newline -> Contains (FormatInt z) sep = false.
Proof.
  intros Hsep. apply not_Contains.
  eapply all_chars_impl; [|apply FormatInt_chars].
  intros c (_ & Hp & Hn)%number_char_plain.
  destruct Hsep as [-> | ->]; by rewrite ?Hp, ?Hn.
Qed.

Lemma FormatBool_no sep b :
  sep = pipe \/ sep = newline -> Contains (FormatBool b) sep = false.
Proof. intros [-> | ->]; by destruct b. Qed.

Lemma FormatInt_first z :
  exists c s, FormatInt z = String c s /\ isSpace c = false.
Proof.
  destruct (FormatInt_chars z) as [Hc Hne].
  destruct (FormatInt z) as [|c s]; [done|]. exists c, s. split; [done|].
  simpl in Hc. apply andb_true_iff in Hc as [Hc _].
  by apply number_char_plain in Hc as [? _].
Qed.

(** *** One line *)

Lemma entry_line_text e : entry_line e = entry_text e +:+ String newline EmptyString.
Proof.
  unfold entry_line, entry_text.
  by rewrite !app_assoc_s, !append_cons, !app_assoc_s, !append_cons, !app_assoc_s.
Qed.

Lemma entry_text_command e :
  entry_text e =
  (FormatInt (Unix (EntryTimestamp e)) +:+ String pipe
     (FormatBool (EntrySuccess e) +:+ String pipe (FormatInt (EntryDuration e))))
  +:+ String pipe (EntryCommand e).
Proof.
  unfold entry_text.
  by rewrite !app_assoc_s, !append_cons, !app_assoc_s, !append_cons.
Qed.

Lemma isSpace_pipe : isSpace pipe = false.
Proof. reflexivity. Qed.

Lemma entry_text_right_trimmed e :
  right_trimmed (EntryCommand e) -> right_trimmed (entry_text e).
Proof.
  intros Hc. unfold right_trimmed. rewrite entry_text_command.
  assert (TrimRight (String pipe (EntryCommand e)) = String pipe (EntryCommand e)) as Ht.
  { simpl. by rewrite Hc. }
  rewrite TrimRight_app; rewrite Ht; done.
Qed.

Lemma entry_text_trimmed e :
  right_trimmed (EntryCommand e) -> TrimSpace (entry_text e) = entry_text e.
Proof.
  intros Hc. unfold TrimSpace.
  assert (TrimLeft (entry_text e) = entry_text e) as ->.
  { unfold entry_text.
    destruct (FormatInt_first (Unix (EntryTimestamp e))) as (c & s & -> & Hsp).
    rewrite append_cons. simpl. by rewrite Hsp. }
  by apply entry_text_right_trimmed.
Qed.

Lemma entry_text_no_newline e :
  Contains (EntryCommand e) newline = false ->
  Contains (entry_text e) newline = false.
Proof.
  intros Hc. unfold entry_text.
  rewrite !Contains_app. simpl. rewrite !Contains_app. simpl.
  rewrite !Contains_app. simpl.
  rewrite !FormatInt_no, FormatBool_no, Hc by auto. done.
Qed.

Lemma Unix_time_Unix sec : Unix (time_Unix sec) = sec.
Proof. unfold Unix, time_Unix. by rewrite Z.div_mul. Qed.

Lemma parseHistoryLine_entry_text e :
  entry_int64 e -> parseHistoryLine (entry_text e) = Some (at_second e).
Proof.
  intros [Hts Hd]. unfold parseHistoryLine, entry_text.
  cbn [SplitN].
  rewrite Cut_app by (apply FormatInt_no; auto).
  rewrite Cut_app by (apply FormatBool_no; auto).
  rewrite Cut_app by (apply FormatInt_no; auto).
  by rewrite !Sscanf_d_FormatInt, Sscanf_t_FormatBool.
Qed.

Lemma entry_text_not_empty e : is_empty (entry_text e) = false.
Proof.
  unfold entry_text.
  destruct (FormatInt_first (Unix (EntryTimestamp e))) as (c & s & -> & _).
  by rewrite append_cons.
Qed.

Lemma load_line_entry_text acc e :
  entry_wf e -> load_line acc (entry_text e) = acc ++ [at_second e].
Proof.
  intros [Ht Hi]. unfold load_line. cbv zeta.
  rewrite entry_text_trimmed, entry_text_not_empty by done.
  by rewrite parseHistoryLine_entry_text.
Qed.

(** *** The whole file *)

Lemma decode_entry_texts es : forall acc,
  Forall entry_wf es ->
  foldl load_line acc (entry_text <$> es) = acc ++ (at_second <$> es).
Proof.
  induction es as [|e es IH]; intros acc Hwf; simpl.
  - by rewrite app_nil_r.
  - apply Forall_cons in Hwf as [He Hes].
    rewrite load_line_entry_text, IH by done.
    by rewrite <- app_assoc.
Qed.

Lemma Split_Save_lines es :
  Forall (fun e => Contains (EntryCommand e) newline = false) es ->
  Split (Save_lines es) newline = (entry_text <$> es) ++ [EmptyString].
Proof.
  induction es as [|e es IH]; intros Hn; [done|].
  apply Forall_cons in Hn as [He Hes]. cbn [Save_lines].
  rewrite entry_line_text, app_assoc_s, append_cons, append_nil.
  rewrite Split_app by (by apply entry_text_no_newline).
  by rewrite IH.
Qed.

Lemma raw_lines_Save_lines es :
  Forall (fun e => Contains (EntryCommand e) newline = false) es ->
  raw_lines (Save_lines es) = entry_text <$> es.
Proof.
  intros Hn. unfold raw_lines. cbv zeta. rewrite Split_Save_lines by done.
  rewrite last_snoc. apply removelast_last.
Qed.

Lemma scan_lines_Save_lines es :
  Forall fits_a_line es ->
  Forall entry_wf es ->
  scan_lines (Save_lines es) = Ok (entry_text <$> es).
Proof.
  intros Hfit Hwf. unfold scan_lines. cbv zeta.
  rewrite raw_lines_Save_lines
    by (eapply Forall_impl; [exact Hfit | by intros ? [? _]]).
  assert (forallb (fun l => bool_decide (Z.of_nat (String.length l) < MaxScanTokenSize)%Z)
            (entry_text <$> es) = true) as ->.
  { apply forallb_forall. intros l Hin%list_elem_of_In.
    apply list_elem_of_fmap in Hin as (e & -> & He).
    apply bool_decide_eq_true.
    by apply (proj1 (Forall_forall _ _) Hfit e) in He as [_ ?]. }
  f_equal. rewrite <- list_fmap_compose. apply list_fmap_ext.
  intros i e He. simpl. apply dropCR_right_trimmed, entry_text_right_trimmed.
  apply list_elem_of_lookup_2 in He.
  by apply (proj1 (Forall_forall _ _) Hwf e) in He as [? _].
Qed.

Lemma keep_last_fits max es :
  (Z.of_nat (length es) <= max)%Z -> keep_last max es = Some es.
Proof. intros H. unfold keep_last. by rewrite decide_False by lia. Qed.

(** [Save] then [Load] on a new history: the entries come back, with
    their timestamps cut to the second. *)
Lemma Load_Save homeDir max h :
  Forall fits_a_line (entries h) ->
  Forall entry_wf (entries h) ->
  (Z.of_nat (length (entries h)) <= max)%Z ->
  Load (NewHistory homeDir max) (Some (Save h)) =
  Some (MkHistory (at_second <$> entries h) max (homeDir +:+ "/.slsh_history"), None).
Proof.
  intros Hfit Hwf Hlen. unfold Load, Save.
  rewrite scan_lines_Save_lines by done.
  unfold decode_lines. rewrite decode_entry_texts by done.
  cbn [maxSize filePath NewHistory app].
  by rewrite keep_last_fits by (by rewrite length_fmap).
Qed.

(** *** The entries of a reachable history *)

Lemma ParseInt_int64 s z : ParseInt s = Some z -> in_int64 z.
Proof.
  unfold ParseInt, in_int64, int64_cutoff.
  destruct (match s with
            | EmptyString => (false, s)
            | String c rest =>
                if Ascii.eqb c "+" then (false, rest)
                else if Ascii.eqb c "-" then (true, rest) else (false, s)
            end) as [neg digits].
  destruct (NilZero.uint_of_string digits) as [d|]; [|done].
  pose proof (Z_of_uint_nonneg d). cbv zeta.
  destruct neg.
  - destruct (Z.gtb_spec (Z.of_uint d) (2 ^ 63)); [done|]. intros [= <-]. lia.
  - rewrite Z.geb_leb.
    destruct (Z.leb_spec (2 ^ 63) (Z.of_uint d)); [done|]. intros [= <-]. lia.
Qed.

Lemma Sscanf_d_int64 s z : Sscanf_d s = Some z -> in_int64 z.
Proof.
  unfold Sscanf_d. destruct (SkipSpace s) as [[|c rest]|]; [done| |done].
  destruct (Ascii.eqb c "+" || Ascii.eqb c "-");
    destruct (span _ _) as [tok ?]; destruct (is_empty tok); try done;
    apply ParseInt_int64.
Qed.

Lemma right_trimmed_after c s : right_trimmed (String c s) -> right_trimmed s.
Proof. apply (right_trimmed_suffix (String c EmptyString) s). Qed.

Lemma parseHistoryLine_wf line e :
  right_trimmed line -> parseHistoryLine line = Some e -> entry_wf e.
Proof.
  intros Ht. unfold parseHistoryLine. cbn [SplitN].
  destruct (Cut line pipe) as [b0 [a0|]] eqn:H0; [|done].
  destruct (Cut a0 pipe) as [b1 [a1|]] eqn:H1; [|done].
  destruct (Cut a1 pipe) as [b2 [a2|]] eqn:H2; [|done].
  destruct (Sscanf_d b0) as [ts|] eqn:Hts; [|done].
  destruct (Sscanf_t b1) as [ok|]; [|done].
  destruct (Sscanf_d b2) as [d|] eqn:Hd; [|done].
  intros [= <-]. split; cbn [EntryCommand].
  - apply Cut_Some in H0, H1, H2. subst line a0 a1.
    apply right_trimmed_suffix, right_trimmed_after in Ht.
    apply right_trimmed_suffix, right_trimmed_after in Ht.
    by apply right_trimmed_suffix, right_trimmed_after in Ht.
  - split; cbn [EntryTimestamp EntryDuration].
    + rewrite Unix_time_Unix. by eapply Sscanf_d_int64.
    + by eapply Sscanf_d_int64.
Qed.

Lemma decode_lines_wf texts : forall acc,
  Forall entry_wf acc -> Forall entry_wf (foldl load_line acc texts).
Proof.
  induction texts as [|text texts IH]; intros acc Hacc; [done|].
  simpl. apply IH. unfold load_line. cbv zeta.
  destruct (is_empty (TrimSpace text)); [done|].
  destruct (parseHistoryLine (TrimSpace text)) as [e|] eqn:He; [|done].
  apply Forall_app. split; [done|]. apply Forall_singleton.
  eapply parseHistoryLine_wf; [apply TrimSpace_right_trimmed | exact He].
Qed.

Lemma reachable_wf homeDir max h :
  (0 <= max)%Z -> reachable homeDir max h ->
  Forall entry_wf (entries h)
  /\ filePath h = homeDir +:+ "/.slsh_history".
Proof.
  intros Hmax. induction 1 as [|h op h' Hr [IH Hpath] Hok Hop]; [done|].
  destruct (reachable_with_bound _ _ _ _ Hmax Hr) as [Hm Hl].
  split.
  - destruct op as [c s d n|[content|]|]; cbn [apply_op] in Hop.
    + destruct (Add_cases h c s d n ltac:(lia))
        as [[_ H]|[(_ & _ & H)|(_ & _ & k & H & _)]];
        rewrite H in Hop; injection Hop as <-; [done..|].
      cbn [entries]. apply Forall_drop, Forall_app. split; [done|].
      apply Forall_singleton. destruct Hok as [Hd Hn].
      split; [apply TrimSpace_right_trimmed | by split].
    + destruct (Load_cases h content ltac:(lia))
        as [(e & _ & H)|(texts & k & _ & H & _)];
        rewrite H in Hop; simpl in Hop; injection Hop as <-; [done|].
      cbn [entries]. apply Forall_drop. by apply decode_lines_wf.
    + simpl in Hop. by injection Hop as <-.
    + injection Hop as <-. done.
  - destruct (apply_op_bound h op h') as (_ & _ & Hp); [lia | lia | done |].
    congruence.
Qed.

Lemma triple_at_second e : triple (at_second e) = triple e.
Proof. reflexivity. Qed.

(** C5, as amended: for every reachable history (maximum not negative)
    whose commands hold no newline and whose lines in the file are
    shorter than the buffer of the scanner (64 KiB), [Save] followed by
    [Load] on a new history gives, without error, the same entries in
    the same order with their timestamps cut to the second: the same
    commands, success flags and durations in nanoseconds.  Nothing is
    asked of the [|] characters of a command. *)
Theorem C5_save_load_round_trip :
  forall homeDir max h,
    (0 <= max)%Z ->
    reachable homeDir max h ->
    Forall fits_a_line (entries h) ->
    exists h',
      Load (NewHistory homeDir max) (Some (Save h)) = Some (h', None)
      /\ entries h' = at_second <$> entries h
      /\ triple <$> entries h' = triple <$> entries h
      /\ (fun e => Unix (EntryTimestamp e)) <$> entries h'
         = (fun e => Unix (EntryTimestamp e)) <$> entries h
      /\ maxSize h' = maxSize h /\ filePath h' = filePath h.
Proof.
  intros homeDir max h Hmax Hr Hfit.
  destruct (reachable_wf _ _ _ Hmax Hr) as [Hwf Hpath].
  destruct (reachable_with_bound _ _ _ _ Hmax Hr) as [Hm Hl].
  eexists. split; [by apply Load_Save|].
  cbn [entries maxSize filePath]. split; [done|]. split; [|split; [|done]].
  - rewrite <- list_fmap_compose. by apply list_fmap_ext.
  - rewrite <- list_fmap_compose. apply list_fmap_ext.
    intros i e _. simpl. apply Unix_time_Unix.
Qed.

Lemma pipe_history_reachable : reachable "/home/u" 1000 pipe_history.
Proof.
  apply (run_ops_reachable _ _ _ pipe_ops (NewHistory "/home/u" 1000));
    [apply reach_new | | reflexivity].
  unfold pipe_ops.
  repeat (apply Forall_cons; split; [split; by apply in_int64_check|]).
  by apply Forall_nil.
Qed.

Lemma C5_save_load_round_trip_witness :
  exists h',
    Load (NewHistory "/home/u" 1000) (Some (Save pipe_history)) = Some (h', None)
    /\ triple <$> entries h' =
       [("squeue -u bob | grep RUNNING", true, 1234567%Z); ("echo |a|b", false, 15%Z)].
Proof.
  destruct (C5_save_load_round_trip "/home/u" 1000 pipe_history) as (h' & Hl & _ & Ht & _).
  - lia.
  - apply pipe_history_reachable.
  - repeat (apply Forall_cons; split; [split; [reflexivity | by vm_compute]|]).
    apply Forall_nil. done.
  - exists h'. split; [exact Hl|]. rewrite Ht. reflexivity.
Defined.

Lemma long_command_plain :
  all_chars (fun c => negb (isSpace c)) long_command = true
  /\ is_empty long_command = false
  /\ Contains long_command newline = false.
Proof. split; [|split]; vm_compute; reflexivity. Qed.

Lemma history_long_command_reachable :
  reachable "/home/u" 1000 history_long_command.
Proof.
  destruct long_command_plain as (Hplain & Hne & _).
  apply (reach_step _ _ _ (NewHistory "/home/u" 1000)
           (OpAdd long_command true 5 1700000000000000000)).
  - apply reach_new.
  - split; by apply in_int64_check.
  - cbn [apply_op]. rewrite Add_first.
    + by rewrite (TrimSpace_no_space _ Hplain).
    + lia.
    + rewrite (TrimSpace_no_space _ Hplain). by apply is_empty_false.
Qed.

(** The claim fails on the code: a command of 65536 characters, with no
    newline, is saved in a line that the scanner of [Load] refuses; the
    load returns an error and the new history stays empty. *)
Lemma C5_counterexample :
  (0 <= 1000)%Z
  /\ reachable "/home/u" 1000 history_long_command
  /\ Forall (fun e => Contains (EntryCommand e) newline = false)
            (entries history_long_command)
  /\ (Z.of_nat (length (entries history_long_command)) <= 1000)%Z
  /\ Load (NewHistory "/home/u" 1000) (Some (Save history_long_command))
     = Some (NewHistory "/home/u" 1000, Some ErrTooLong)
  /\ length (entries (NewHistory "/home/u" 1000)) = 0%nat
  /\ length (entries history_long_command) = 1%nat.
Proof.
  split; [lia|]. split; [apply history_long_command_reachable|].
  split.
  { apply Forall_cons. split; [apply long_command_plain | apply Forall_nil; exact I]. }
  split; [cbn [history_long_command entries length]; lia|].
  split; [vm_compute; reflexivity|].
  split; reflexivity.
Qed.

(* ===================================================================== *)
(** * Part III: more of the code                                          *)
(* ===================================================================== *)

(** ** The tokenizer and the parser: what every result looks like *)

Lemma tokenize_step_tokens st c :
  Forall (fun t => t <> EmptyString) (tokens st) ->
  Forall (fun t => t <> EmptyString) (tokens (tokenize_step st c)).
Proof.
  intros H. unfold tokenize_step.
  destruct (escaped st); [done|].
  destruct (Ascii.eqb c backslash); [done|].
  destruct (Ascii.eqb c dquote || Ascii.eqb c squote).
  { destruct (negb (inQuotes st)); [done|].
    by destruct (Ascii.eqb c (quoteChar st)). }
  destruct (Ascii.eqb c space || Ascii.eqb c tab); [|done].
  destruct (inQuotes st); [done|].
  destruct (is_empty (current st)) eqn:E; simpl; [done|].
  apply Forall_app. split; [done|].
  apply Forall_cons. split; [by apply is_empty_false | done].
Qed.

Lemma range_fold_tokens s : forall st,
  Forall (fun t => t <> EmptyString) (tokens st) ->
  Forall (fun t => t <> EmptyString) (tokens (range_fold tokenize_step st s)).
Proof.
  induction s as [|c s IH]; intros st H; [done|].
  cbn [range_fold]. by apply IH, tokenize_step_tokens.
Qed.

Lemma tokenize_not_empty line ts :
  tokenize line = Ok ts -> Forall (fun t => t <> EmptyString) ts.
Proof.
  unfold tokenize, tokenize_finish.
  pose proof (range_fold_tokens line tok_init (Forall_nil_2 _)) as H.
  destruct (range_fold tokenize_step tok_init line) as [toks cur inq q esc].
  cbn [tokens current inQuotes] in *.
  destruct inq; [done|].
  destruct (is_empty cur) eqn:E; simpl; intros [= <-]; [done|].
  apply Forall_app. split; [done|].
  apply Forall_cons. split; [by apply is_empty_false | done].
Qed.

(** X1: [tokenize] never returns an empty token: a token is emitted only
    when the current token has a character, so an empty pair of quotes
    gives no token at all. *)
Theorem X1_tokens_not_empty line ts :
  tokenize line = Ok ts ->
  Forall (fun t => t <> EmptyString) ts.
Proof. apply tokenize_not_empty. Qed.

Lemma X1_tokens_not_empty_witness :
  tokenize line_quoted = Ok ["a"; "b c"; "d"]
  /\ Forall (fun t => t <> EmptyString) ["a"; "b c"; "d"].
Proof.
  split; [reflexivity|].
  apply (X1_tokens_not_empty line_quoted). reflexivity.
Defined.

(** What a successful [ParseCommand] went through. *)
Lemma ParseCommand_Ok_inv line cmd :
  ParseCommand line = Ok cmd ->
  exists name rest,
    tokenize (TrimSpace line) = Ok (name :: rest)
    /\ cmd = MkCommand name (spec_args (classify rest))
               (foldl item_insert ∅ (classify rest)).
Proof.
  intros Hp. pose proof Hp as Hp'. unfold ParseCommand in Hp. cbv zeta in Hp.
  destruct (is_empty (TrimSpace line)); [done|].
  destruct (tokenize (TrimSpace line)) as [toks|e] eqn:Htok; [|done].
  destruct toks as [|name rest]; [done|].
  exists name, rest. split; [done|].
  rewrite (ParseCommand_tokens line name rest Htok) in Hp'. congruence.
Qed.

Lemma ParseCommand_Name line cmd :
  ParseCommand line = Ok cmd -> Name cmd <> EmptyString.
Proof.
  intros (name & rest & Htok & ->)%ParseCommand_Ok_inv. cbn [Name].
  apply tokenize_not_empty in Htok. by apply Forall_cons in Htok as [H _].
Qed.

(** X2: a command that [ParseCommand] returns has a name that is not
    empty, so [ValidateCommand] never answers "command name cannot be
    empty" for a parsed line. *)
Theorem X2_parsed_name_not_empty line cmd :
  ParseCommand line = Ok cmd ->
  Name cmd <> EmptyString /\ ValidateCommand cmd <> Err EmptyName.
Proof.
  intros Hp. pose proof (ParseCommand_Name line cmd Hp) as Hn.
  split; [done|].
  unfold ValidateCommand. apply is_empty_false in Hn. rewrite Hn.
  destruct (_ && _); [done|].
  destruct (Options cmd !! "-t") as [t|]; [|done].
  by destruct (_ && _).
Qed.

Lemma X2_parsed_name_not_empty_witness :
  ParseCommand "run -N 2 hostname" = Ok example_run_N
  /\ Name example_run_N <> EmptyString
  /\ ValidateCommand example_run_N <> Err EmptyName.
Proof.
  split; [reflexivity|].
  apply (X2_parsed_name_not_empty "run -N 2 hostname"). reflexivity.
Defined.

Lemma classify_cons t v rest :
  classify (t :: v :: rest) =
  if HasPrefix t dash then
    if HasPrefix v dash then IOpt t EmptyString :: classify (v :: rest)
    else IOpt t v :: classify rest
  else IArg t :: classify (v :: rest).
Proof. reflexivity. Qed.

(** The items of [classify]: an argument is a token that does not start
    with a dash; an option key starts with one and its value does not. *)
Lemma classify_items ts :
  Forall (fun t => t <> EmptyString) ts ->
  Forall (fun it => match it with
                    | IArg a => a <> EmptyString /\ HasPrefix a dash = false
                    | IOpt k v => HasPrefix k dash = true /\ HasPrefix v dash = false
                    end) (classify ts)
  /\ forall t, t <> EmptyString ->
       Forall (fun it => match it with
                         | IArg a => a <> EmptyString /\ HasPrefix a dash = false
                         | IOpt k v => HasPrefix k dash = true /\ HasPrefix v dash = false
                         end) (classify (t :: ts)).
Proof.
  induction ts as [|v rest IH]; intros Hne.
  - split; [by apply Forall_nil|].
    intros t Ht. cbn [classify].
    destruct (HasPrefix t dash) eqn:E;
      (apply Forall_cons; split; [done | by apply Forall_nil]).
  - apply Forall_cons in Hne as [Hv Hrest].
    destruct (IH Hrest) as [IH1 IH2].
    split; [by apply IH2|].
    intros t Ht. rewrite classify_cons.
    destruct (HasPrefix t dash) eqn:E.
    + destruct (HasPrefix v dash) eqn:Ev.
      * apply Forall_cons. split; [done|]. by apply IH2.
      * apply Forall_cons. split; [done | done].
    + apply Forall_cons. split; [done|]. by apply IH2.
Qed.

Lemma spec_option_elem k v its :
  spec_option k its = Some v -> IOpt k v ∈ its.
Proof.
  unfold spec_option. intros Hl.
  apply last_Some_elem_of in Hl.
  apply list_elem_of_omap in Hl as (it & Hit & Hv).
  destruct it as [k' v'|a]; [|done]. simpl in Hv.
  destruct (decide (k' = k)) as [->|]; [|done]. by injection Hv as ->.
Qed.

(** X3: in a parsed command no argument starts with a dash or is empty,
    every option key starts with a dash, and no option value starts
    with one: a token that starts with a dash is always read as a key. *)
Theorem X3_parsed_dashes line cmd :
  ParseCommand line = Ok cmd ->
  Forall (fun a => a <> EmptyString /\ HasPrefix a dash = false) (Args cmd)
  /\ forall k v, Options cmd !! k = Some v ->
       HasPrefix k dash = true /\ HasPrefix v dash = false.
Proof.
  intros (name & rest & Htok & ->)%ParseCommand_Ok_inv. cbn [Args Options].
  apply tokenize_not_empty in Htok. apply Forall_cons in Htok as [_ Hrest].
  destruct (classify_items rest Hrest) as [Hits _].
  split.
  - apply Forall_forall. intros a Ha. unfold spec_args in Ha.
    apply list_elem_of_omap in Ha as (it & Hit & Hv).
    destruct it as [k v|a']; [done|]. injection Hv as ->.
    rewrite Forall_forall in Hits. exact (Hits _ Hit).
  - intros k v Hk. rewrite foldl_item_insert_lookup in Hk.
    destruct (spec_option k (classify rest)) as [v'|] eqn:Ho;
      [|by rewrite lookup_empty in Hk].
    injection Hk as ->. apply spec_option_elem in Ho.
    rewrite Forall_forall in Hits. exact (Hits _ Ho).
Qed.

Lemma X3_parsed_dashes_witness :
  ParseCommand "run -N 2 hostname" = Ok example_run_N
  /\ Forall (fun a => a <> EmptyString /\ HasPrefix a dash = false) ["hostname"]
  /\ (HasPrefix "-N" dash = true /\ HasPrefix "2" dash = false).
Proof.
  destruct (X3_parsed_dashes "run -N 2 hostname" example_run_N eq_refl)
    as [Ha Ho].
  split; [reflexivity|]. split; [exact Ha|].
  apply (Ho "-N" "2"). reflexivity.
Defined.

(** *** Joining tokens and reading them back *)





(** *** [SplitCommandLine] *)






(** ** The history manager: the queries *)

(** X6: [GetLast] never panics; it returns a suffix of the log that has
    [n] entries, all of them when the log has fewer, and none when [n]
    is zero or negative. *)
Theorem X6_GetLast_suffix h n :
  exists l,
    GetLast h n = Some l
    /\ l `suffix_of` entries h
    /\ Z.of_nat (length l) = Z.max 0 (Z.min n (Z.of_nat (length (entries h)))).
Proof.
  unfold GetLast.
  destruct (n <=? 0)%Z eqn:Hn; cbn [orb].
  { exists []. split; [done|]. split; [apply suffix_nil|]. simpl. lia. }
  destruct (length (entries h) =? 0)%nat eqn:Hl.
  { exists []. split; [done|]. split; [apply suffix_nil|].
    apply Nat.eqb_eq in Hl. simpl. lia. }
  cbv zeta. apply Z.leb_gt in Hn.
  destruct (Z.of_nat (length (entries h)) - n <? 0)%Z eqn:Hs.
  - apply Z.ltb_lt in Hs. rewrite slice_from_Some by lia.
    eexists. split; [done|]. split; [apply suffix_drop|].
    rewrite length_drop. lia.
  - apply Z.ltb_ge in Hs. rewrite slice_from_Some by lia.
    eexists. split; [done|]. split; [apply suffix_drop|].
    rewrite length_drop. lia.
Qed.

Lemma index_at_Some {A} (s : list A) i :
  (0 <= i < Z.of_nat (length s))%Z ->
  exists x, s !! Z.to_nat i = Some x /\ index_at s i = Some x.
Proof.
  intros Hi. unfold index_at. rewrite decide_True by done.
  destruct (lookup_lt_is_Some_2 s (Z.to_nat i)) as [x Hx]; [lia|].
  by exists x.
Qed.

Lemma GetByIndex_in_range h index :
  (1 <= index <= Z.of_nat (length (entries h)))%Z ->
  exists e,
    entries h !! Z.to_nat (index - 1) = Some e
    /\ GetByIndex h index = Some (Ok (EntryCommand e)).
Proof.
  intros Hi. unfold GetByIndex.
  destruct (index <? 1)%Z eqn:H1; [apply Z.ltb_lt in H1; lia|].
  destruct (index >? Z.of_nat (length (entries h)))%Z eqn:H2;
    [apply Z.gtb_lt in H2; lia|].
  cbn [orb].
  destruct (index_at_Some (entries h) (index - 1)) as (e & He & ->); [lia|].
  by exists e.
Qed.

Lemma GetByIndex_out_of_range h index :
  ~ (1 <= index <= Z.of_nat (length (entries h)))%Z ->
  GetByIndex h index = Some (Err (IndexOutOfRange index (length (entries h)))).
Proof.
  intros Hi. unfold GetByIndex.
  destruct (index <? 1)%Z eqn:H1; [done|]. apply Z.ltb_ge in H1.
  destruct (index >? Z.of_nat (length (entries h)))%Z eqn:H2; [done|].
  pose proof (Zgt_cases index (Z.of_nat (length (entries h)))) as H.
  rewrite H2 in H. lia.
Qed.

Lemma GetByIndex_Ok_inv h index c :
  GetByIndex h index = Some (Ok c) ->
  (1 <= index <= Z.of_nat (length (entries h)))%Z
  /\ exists e, entries h !! Z.to_nat (index - 1) = Some e /\ EntryCommand e = c.
Proof.
  intros Hg.
  destruct (decide (1 <= index <= Z.of_nat (length (entries h)))%Z) as [Hi|Hi].
  - split; [done|].
    destruct (GetByIndex_in_range h index Hi) as (e & He & Hg').
    exists e. split; [done|]. congruence.
  - rewrite (GetByIndex_out_of_range h index Hi) in Hg. done.
Qed.

(** X7: [GetByIndex] never panics; for an index from 1 to the number of
    entries it returns the command of the entry at that place, counted
    from 1, and for any other index the out-of-range error. *)
Theorem X7_GetByIndex_range h index :
  ((1 <= index <= Z.of_nat (length (entries h)))%Z ->
   exists e,
     entries h !! Z.to_nat (index - 1) = Some e
     /\ GetByIndex h index = Some (Ok (EntryCommand e)))
  /\ (~ (1 <= index <= Z.of_nat (length (entries h)))%Z ->
      GetByIndex h index =
      Some (Err (IndexOutOfRange index (length (entries h))))).
Proof.
  split; [apply GetByIndex_in_range | apply GetByIndex_out_of_range].
Qed.

Lemma X7_GetByIndex_range_witness :
  GetByIndex session_history 2 = Some (Ok "scancel 42")
  /\ GetByIndex session_history 0 = Some (Err (IndexOutOfRange 0 2))
  /\ GetByIndex session_history 3 = Some (Err (IndexOutOfRange 3 2)).
Proof.
  split.
  - destruct (proj1 (X7_GetByIndex_range session_history 2)) as (e & He & ->).
    + simpl. lia.
    + by injection He as <-.
  - split.
    + apply (proj2 (X7_GetByIndex_range session_history 0)). simpl. lia.
    + apply (proj2 (X7_GetByIndex_range session_history 3)). simpl. lia.
Defined.

(** *** The newest entry after [Add] *)










(** *** The invariant, seen through [GetByIndex] *)

Lemma no_repeat_lookup es : forall i a b,
  no_repeat es ->
  es !! i = Some a -> es !! S i = Some b ->
  EntryCommand a <> EntryCommand b.
Proof.
  induction es as [|e1 es IH]; intros i a b Hnr Ha Hb; [done|].
  destruct es as [|e2 es]; [by destruct i|].
  destruct Hnr as [Hne Hnr].
  destruct i as [|i].
  - simpl in Ha, Hb. by injection Ha as <-; injection Hb as <-.
  - apply (IH i a b Hnr); done.
Qed.

(** X9: in a history reached from a new one by [Add], [Clear] and
    [Load] of files that hold no blank command and no immediate repeat,
    [GetByIndex] only succeeds for an index from 1 to the maximum size,
    never returns an empty command, and returns different commands for
    two indices in a row. *)
Theorem X9_GetByIndex_reachable homeDir max h index c :
  (0 <= max)%Z ->
  reachable_with file_ok homeDir max h ->
  GetByIndex h index = Some (Ok c) ->
  (1 <= index <= max)%Z
  /\ c <> EmptyString
  /\ forall c', GetByIndex h (index + 1) = Some (Ok c') -> c' <> c.
Proof.
  intros Hmax Hr Hg.
  destruct (reachable_with_bound _ _ _ _ Hmax Hr) as [_ Hlen].
  destruct (reachable_with_entries_ok _ _ _ Hmax Hr) as [Hne Hnr].
  apply GetByIndex_Ok_inv in Hg as (Hi & e & He & <-).
  split; [lia|]. split.
  - rewrite Forall_forall in Hne. apply Hne. by eapply list_elem_of_lookup_2.
  - intros c' (Hi' & e' & He' & <-)%GetByIndex_Ok_inv.
    replace (Z.to_nat (index + 1 - 1)) with (S (Z.to_nat (index - 1))) in He' by lia.
    intros Heq. by apply (no_repeat_lookup _ _ _ _ Hnr He He').
Qed.

Lemma X9_GetByIndex_reachable_witness :
  (0 <= 2)%Z
  /\ reachable_with file_ok "/home/u" 2 session_history
  /\ GetByIndex session_history 1 = Some (Ok "squeue -u bob")
  /\ (1 <= 1 <= 2)%Z
  /\ "squeue -u bob" <> EmptyString
  /\ (forall c', GetByIndex session_history (1 + 1) = Some (Ok c') ->
        c' <> "squeue -u bob").
Proof.
  assert (0 <= 2)%Z as Hmax by lia.
  assert (reachable_with file_ok "/home/u" 2 session_history) as Hr.
  { apply (run_ops_reachable _ _ _ session_ops (NewHistory "/home/u" 2));
      [apply reach_new | apply session_ops_ok | reflexivity]. }
  split; [exact Hmax|]. split; [exact Hr|]. split; [reflexivity|].
  apply (X9_GetByIndex_reachable "/home/u" 2 session_history 1 "squeue -u bob"
           Hmax Hr eq_refl).
Defined.

(** *** Eviction *)



(** *** [Search] *)










(** ** The registry *)




(** *** The sorted names *)

Lemma ascii_compare_refl c : Ascii.compare c c = Eq.
Proof. unfold Ascii.compare. apply N.compare_refl. Qed.

Lemma ascii_compare_lt_trans a b c :
  Ascii.compare a b = Lt -> Ascii.compare b c = Lt -> Ascii.compare a c = Lt.
Proof.
  unfold Ascii.compare. rewrite !N.compare_lt_iff. apply N.lt_trans.
Qed.

Lemma string_leb_trans a : forall b c,
  String.leb a b = true -> String.leb b c = true -> String.leb a c = true.
Proof.
  unfold String.leb.
  induction a as [|ca a IH]; intros [|cb b] [|cc c]; simpl; try done.
  destruct (Ascii.compare ca cb) eqn:E1; destruct (Ascii.compare cb cc) eqn:E2;
    try done; intros H1 H2.
  - apply Ascii.compare_eq_iff in E1 as ->. apply Ascii.compare_eq_iff in E2 as ->.
    rewrite ascii_compare_refl. by apply (IH b c).
  - apply Ascii.compare_eq_iff in E1 as ->. by rewrite E2.
  - apply Ascii.compare_eq_iff in E2 as <-. by rewrite E1.
  - by rewrite (ascii_compare_lt_trans _ _ _ E1 E2).
Qed.

#[local] Instance string_le_trans : Transitive string_le.
Proof. intros a b c. apply string_leb_trans. Qed.

#[local] Instance string_le_total : Total string_le.
Proof. intros a b. apply String.leb_total. Qed.

#[local] Instance string_le_antisym : AntiSymm eq string_le.
Proof. intros a b. apply String.leb_antisym. Qed.

Lemma names_foldl (order : list (string * CommandHandler)) : forall acc,
  foldl (fun names kv => names ++ [kv.1]) acc order = acc ++ order.*1.
Proof.
  induction order as [|kv order IH]; intros acc; simpl.
  - by rewrite app_nil_r.
  - by rewrite IH, <- app_assoc.
Qed.

Lemma GetCommandNames_Permutation order commands :
  enumerates_handlers order commands ->
  GetCommandNames order ≡ₚ (map_to_list commands).*1.
Proof.
  intros He. unfold GetCommandNames, sort_Strings.
  rewrite sorting.merge_sort_Permutation, names_foldl. simpl.
  unfold enumerates_handlers in He. by rewrite He.
Qed.

(** X13: [GetCommandNames] returns every registered name once, in
    increasing order, and the same list whatever the order in which the
    runtime enumerates the map. *)
Theorem X13_GetCommandNames commands order :
  enumerates_handlers order commands ->
  (forall name, name ∈ GetCommandNames order <-> is_Some (commands !! name))
  /\ NoDup (GetCommandNames order)
  /\ Sorted.StronglySorted string_le (GetCommandNames order)
  /\ forall order', enumerates_handlers order' commands ->
       GetCommandNames order' = GetCommandNames order.
Proof.
  intros He.
  pose proof (GetCommandNames_Permutation order commands He) as Hp.
  split; [|split; [|split]].
  - intros name. rewrite Hp. rewrite list_elem_of_fmap. split.
    + intros ([k h] & -> & Hin). apply elem_of_map_to_list in Hin. by exists h.
    + intros [h Hh]. exists (name, h). split; [done|].
      by apply elem_of_map_to_list.
  - rewrite Hp. apply NoDup_fst_map_to_list.
  - apply sorting.StronglySorted_merge_sort; apply _.
  - intros order' He'.
    apply (sorting.StronglySorted_unique string_le).
    + apply sorting.StronglySorted_merge_sort; apply _.
    + apply sorting.StronglySorted_merge_sort; apply _.
    + rewrite Hp. by apply GetCommandNames_Permutation.
Qed.

Lemma X13_GetCommandNames_witness :
  GetCommandNames [("status", handler_ok); ("run", handler_ok)] = ["run"; "status"]
  /\ GetCommandNames (map_to_list registry_run_status) = ["run"; "status"].
Proof.
  assert (enumerates_handlers [("status", handler_ok); ("run", handler_ok)]
            registry_run_status) as He.
  { unfold enumerates_handlers. apply NoDup_Permutation.
    - apply NoDup_cons. split; [|apply NoDup_singleton].
      intros [=]%list_elem_of_singleton.
    - apply NoDup_map_to_list.
    - intros [k h]. rewrite elem_of_map_to_list. unfold registry_run_status.
      rewrite !elem_of_cons, elem_of_nil. split.
      + intros [[= -> ->]|[[= -> ->]|[]]]; reflexivity.
      + intros Hl.
        destruct (decide (k = "run")) as [->|Hr].
        * rewrite lookup_insert_eq in Hl. injection Hl as <-. by right; left.
        * rewrite lookup_insert_ne in Hl by done.
          apply lookup_singleton_Some in Hl as [<- <-]. by left. }
  split; [reflexivity|].
  destruct (X13_GetCommandNames registry_run_status _ He) as (_ & _ & _ & Hu).
  rewrite (Hu (map_to_list registry_run_status)); [reflexivity|].
  unfold enumerates_handlers. reflexivity.
Defined.

(** *** The arguments of an external command *)

Lemma buildArgs_foldl order : forall acc,
  foldl buildArgs_step acc order =
  acc ++ concat (map (fun kv => if is_empty kv.2 then [kv.1] else [kv.1; kv.2]) order).
Proof.
  induction order as [|[k v] order IH]; intros acc; simpl.
  - by rewrite app_nil_r.
  - rewrite IH. unfold buildArgs_step. cbn [fst snd].
    destruct (is_empty v); simpl; by rewrite <- !app_assoc.
Qed.

Lemma elem_of_concat_map {A B} (f : A -> list B) b l :
  b ∈ concat (map f l) -> exists x, x ∈ l /\ b ∈ f x.
Proof.
  induction l as [|x l IH]; simpl; [by intros ?%elem_of_nil|].
  intros [H|H]%elem_of_app.
  - exists x. split; [by left | done].
  - destruct (IH H) as (y & Hy & Hb). exists y. split; [by right | done].
Qed.

(** X14: the arguments [buildArgs] gives to an external program are
    the options first and then the positional arguments as they are:
    every option key is there, followed by its value when that is not
    empty, and nothing is there that the command does not hold. *)
Theorem X14_buildArgs rt cmd :
  enumerates (range_map rt (Options cmd)) (Options cmd) ->
  Args cmd `suffix_of` buildArgs rt cmd
  /\ (forall k v, Options cmd !! k = Some v ->
        occurs_in (if is_empty v then [k] else [k; v])
                  (take (length (buildArgs rt cmd) - length (Args cmd))
                        (buildArgs rt cmd)))
  /\ (forall a, a ∈ buildArgs rt cmd ->
        a ∈ Args cmd
        \/ is_Some (Options cmd !! a)
        \/ exists k, Options cmd !! k = Some a).
Proof.
  intros He. unfold buildArgs. rewrite buildArgs_foldl. simpl.
  split; [by apply suffix_app_r|]. split.
  - intros k v Hk. rewrite length_app, Nat.add_sub, take_app_length.
    apply (enumerates_lookup _ _ _ _ He) in Hk.
    apply (occurs_in_concat_map
             (fun kv => if is_empty kv.2 then [kv.1] else [kv.1; kv.2]) (k, v)).
    done.
  - intros a [Ha|Ha]%elem_of_app; [|by left]. right.
    apply elem_of_concat_map in Ha as ([k v] & Hkv & Ha).
    apply (enumerates_lookup _ _ _ _ He) in Hkv. cbn [fst snd] in Ha.
    destruct (is_empty v).
    + apply list_elem_of_singleton in Ha as ->. left. by exists v.
    + apply elem_of_cons in Ha as [->|Ha]; [left; by exists v|].
      apply list_elem_of_singleton in Ha as ->. right. by exists k.
Qed.

Lemma X14_buildArgs_witness :
  buildArgs rt_children_fail cmd_squeue_bob = ["-u"; "bob"]
  /\ occurs_in ["-u"; "bob"]
       (take (length (buildArgs rt_children_fail cmd_squeue_bob)
              - length (Args cmd_squeue_bob))
             (buildArgs rt_children_fail cmd_squeue_bob)).
Proof.
  split; [reflexivity|].
  apply (proj1 (proj2 (X14_buildArgs rt_children_fail cmd_squeue_bob
                         (enumerates_map_to_list _))) "-u" "bob").
  reflexivity.
Defined.

(** *** The result of a captured run *)

(** X15: [Client.Execute] runs one child, with the timeout of the
    client; it returns an error exactly when the result does not have
    [Success], and that is exactly when the exit code of the result is
    not zero; the exit code is -1 when the child could not be started,
    and the two outputs are those of the child. *)
Theorem X15_Client_Execute_result rt c command args :
  let r := run_child rt (Captured (timeout c)) command args in
  let result := fst (fst (Client_Execute rt c command args)) in
  let err := snd (fst (Client_Execute rt c command args)) in
  snd (Client_Execute rt c command args) = [EvRun (Captured (timeout c)) command args]
  /\ (Success result = true <-> err = None)
  /\ (Success result = true <-> ExitCode result = 0%Z)
  /\ (ended r = StartFailed -> ExitCode result = (-1)%Z)
  /\ Output result = child_stdout r /\ Error result = child_stderr r.
Proof.
  cbv zeta. unfold Client_Execute. cbn [fst snd Success ExitCode Output Error].
  split; [done|]. split; [apply bool_decide_eq_true|].
  unfold cmd_Run.
  destruct (ended (run_child rt (Captured (timeout c)) command args)) as [|code].
  - rewrite bool_decide_eq_false_2 by done. repeat split; done.
  - destruct (code =? 0)%Z eqn:E.
    + rewrite bool_decide_eq_true_2 by done. repeat split; done.
    + rewrite bool_decide_eq_false_2 by done. apply Z.eqb_neq in E.
      repeat split; done.
Qed.

Lemma X15_Client_Execute_result_witness :
  ExitCode (fst (fst (Client_Execute
     (Runtime (fun _ _ _ => ChildRun StartFailed EmptyString EmptyString 0) map_to_list)
     NewClient "squeue" []))) = (-1)%Z.
Proof.
  apply (X15_Client_Execute_result
           (Runtime (fun _ _ _ => ChildRun StartFailed EmptyString EmptyString 0)
                    map_to_list) NewClient "squeue" []).
  reflexivity.
Defined.

(** ** The shell *)

Lemma omap_did_fmap (evs : list event) : omap did (Did <$> evs) = evs.
Proof. induction evs as [|e evs IH]; [done|]. cbn. by rewrite IH. Qed.

(** X16: [ExecuteDirectCommand] runs nothing and leaves the shell as
    it is when the line does not parse or the command is not valid;
    and for a line whose command name is no alias, [executeCommand]
    gives the same command to the registry: the handler or child
    processes that run are the same, and [executeCommand] reports an
    error exactly when [ExecuteDirectCommand] returns one. *)
Theorem X16_ExecuteDirectCommand rt s line :
  (forall e, ParseCommand line = Err e ->
     ExecuteDirectCommand rt s line = (s, Some (DirectParseFailed e), []))
  /\ (forall cmd e, ParseCommand line = Ok cmd -> ValidateCommand cmd = Err e ->
        ExecuteDirectCommand rt s line = (s, Some (DirectInvalid e), []))
  /\ (forall elapsed now s' evs,
        (forall cmd, ParseCommand line = Ok cmd ->
                     Aliases (state s) !! Name cmd = None) ->
        executeCommand rt s line elapsed now = Some (s', evs) ->
        omap did evs = snd (ExecuteDirectCommand rt s line)
        /\ (snd (fst (ExecuteDirectCommand rt s line)) = None <-> Forall (fun ev => is_Some (did ev)) evs)).
Proof.
  split; [|split].
  - intros e He. unfold ExecuteDirectCommand. by rewrite He.
  - intros cmd e Hp Hv. unfold ExecuteDirectCommand. by rewrite Hp, Hv.
  - intros elapsed now s' evs Hna. unfold executeCommand, ExecuteDirectCommand.
    destruct (ParseCommand line) as [cmd|e] eqn:Hp.
    2:{ destruct (record_line _ _ _ _ _ _); [|done]. simpl. intros [= <- <-].
        cbn [fst snd omap did]. split; [done|]. split; [done|].
        intros [H _]%Forall_cons. by destruct H. }
    destruct (ValidateCommand cmd) as [[]|e] eqn:Hv.
    2:{ destruct (record_line _ _ _ _ _ _); [|done]. simpl. intros [= <- <-].
        cbn [fst snd omap did]. split; [done|]. split; [done|].
        intros [H _]%Forall_cons. by destruct H. }
    unfold resolveAlias. rewrite (Hna cmd eq_refl).
    destruct (Registry_Execute rt (commands s) (client s) cmd (state s))
      as [[st' err] devs].
    destruct (record_line _ _ _ _ _ _); [|done]. simpl. intros [= <- <-].
    cbn [fst snd]. rewrite omap_app, omap_did_fmap.
    destruct err as [e|]; simpl.
    + rewrite app_nil_r. split; [done|]. split; [done|].
      intros H. apply Forall_app in H as [_ H].
      apply Forall_cons in H as [H _]. by destruct H.
    + rewrite !app_nil_r. split; [done|]. split; [|done]. intros _.
      apply Forall_fmap, Forall_forall. intros ev _. by eexists.
Qed.

Lemma X16_ExecuteDirectCommand_witness :
  ExecuteDirectCommand rt_children_fail (shell_with aliases_q) "run -N 2 -w node1 hostname"
  = (shell_with aliases_q, Some (DirectInvalid ConflictingOptions), []).
Proof.
  apply (proj1 (proj2 (X16_ExecuteDirectCommand rt_children_fail
                         (shell_with aliases_q) "run -N 2 -w node1 hostname"))
           cmd_conflict ConflictingOptions).
  - reflexivity.
  - reflexivity.
Defined.

(** ** Job options: from the options of a command to the arguments of
       [srun] *)

(** *** [parseInt] reads what [%d] prints *)

Lemma wrap64_id z : in_int64 z -> wrap64 z = z.
Proof.
  unfold in_int64, wrap64. intros Hz.
  rewrite Z.mod_small by lia. lia.
Qed.

Lemma of_uint_acc_le d : forall acc,
  (Z.pos acc <= Z.pos (Pos.of_uint_acc d acc))%Z.
Proof.
  induction d; intros acc; simpl; try lia;
    match goal with
    | IH : forall acc, _ |- (_ <= Z.pos (Pos.of_uint_acc _ ?a))%Z =>
        specialize (IH a); lia
    end.
Qed.

Ltac digit_step :=
  match goal with
  | |- context [IsDigit ?c] => change (IsDigit c) with true
  end;
  cbv iota;
  match goal with
  | |- context [digit_value ?c] =>
      let v := eval vm_compute in (digit_value c) in
      change (digit_value c) with v
  end.

Lemma parseInt_loop_uint_acc d : forall acc,
  (Z.pos (Pos.of_uint_acc d acc) < 2 ^ 63)%Z ->
  parseInt_loop IsDigit (NilEmpty.string_of_uint d) (Z.pos acc) =
  Z.pos (Pos.of_uint_acc d acc).
Proof.
  induction d; intros acc Hlt; [done|..];
    cbn [NilEmpty.string_of_uint parseInt_loop Pos.of_uint_acc] in *;
    digit_step;
    match goal with
    | |- context [Pos.of_uint_acc ?d ?a] =>
        pose proof (of_uint_acc_le d a) as Hle;
        rewrite wrap64_id by (unfold in_int64; lia);
        rewrite <- (IHd a Hlt); f_equal; lia
    end.
Qed.

Lemma parseInt_loop_uint d :
  (Z.of_uint d < 2 ^ 63)%Z ->
  parseInt_loop IsDigit (NilEmpty.string_of_uint d) 0%Z = Z.of_uint d.
Proof.
  unfold Z.of_uint.
  induction d; intros Hlt; [done|..];
    cbn [NilEmpty.string_of_uint parseInt_loop Pos.of_uint] in *;
    digit_step;
    [by apply IHd|..];
    match goal with
    | |- _ = Z.of_N (N.pos (Pos.of_uint_acc ?d ?a)) =>
        change (wrap64 _) with (Z.pos a);
        by apply parseInt_loop_uint_acc
    end.
Qed.

Lemma parseInt_FormatInt n : in_int64 n -> parseInt (FormatInt n) = Z.max 0 n.
Proof.
  intros [Hlo Hhi]. unfold parseInt, parseInt_with, FormatInt.
  destruct (decide (0 <= n)%Z) as [Hn|Hn].
  - destruct (to_uint_value n Hn) as (d & -> & Hd & Hv). cbn [NilZero.string_of_int].
    assert (NilZero.string_of_uint d = NilEmpty.string_of_uint d) as ->
      by (by destruct d).
    rewrite parseInt_loop_uint by lia. lia.
  - destruct n as [|p|p]; [lia|lia|]. simpl. lia.
Qed.

(** X17: [parseInt] reads back the number that [%d] prints, for every
    number of 64 bits that is not negative, and reads a negative number
    as zero, since the sign is no digit. *)
Theorem X17_parseInt_FormatInt n :
  in_int64 n ->
  parseInt (FormatInt n) = Z.max 0 n
  /\ shell_parseInt (FormatInt n) = Z.max 0 n.
Proof. intros Hn. split; by apply parseInt_FormatInt. Qed.

Lemma X17_parseInt_FormatInt_witness :
  in_int64 9223372036854775807
  /\ parseInt (FormatInt 9223372036854775807) = 9223372036854775807%Z
  /\ parseInt (FormatInt (-4)) = 0%Z.
Proof.
  assert (in_int64 9223372036854775807) as H1 by (by apply in_int64_check).
  assert (in_int64 (-4)) as H2 by (by apply in_int64_check).
  split; [exact H1|]. split.
  - apply (proj1 (X17_parseInt_FormatInt 9223372036854775807 H1)).
  - apply (proj1 (X17_parseInt_FormatInt (-4) H2)).
Defined.

(** *** The defaults of the configuration *)





(** *** The arguments of [srun] *)

Lemma elem_of_if_snoc {A} (c : bool) (x y : A) l :
  x ∈ l -> x ∈ (if c then l ++ [y] else l).
Proof. intros H. destruct c; [|done]. apply elem_of_app. by left. Qed.

Lemma exports_foldl (order : list (string * string)) : forall acc,
  foldl (fun args kv => args ++ ["--export=" +:+ kv.1 +:+ "=" +:+ kv.2]) acc order =
  acc ++ map (fun kv => "--export=" +:+ kv.1 +:+ "=" +:+ kv.2) order.
Proof.
  induction order as [|kv order IH]; intros acc; simpl.
  - by rewrite app_nil_r.
  - by rewrite IH, <- app_assoc.
Qed.

Lemma buildJobArgs_nodes rt o :
  (JobOptions.Nodes o > 0)%Z ->
  ("--nodes=" +:+ FormatInt (JobOptions.Nodes o)) ∈ buildJobArgs rt o.
Proof.
  intros Hn. unfold buildJobArgs. cbv zeta.
  apply elem_of_app. left. rewrite exports_foldl. apply elem_of_app. left.
  do 8 apply elem_of_if_snoc.
  assert ((JobOptions.Nodes o >? 0)%Z = true) as -> by lia.
  apply elem_of_app. right. by apply list_elem_of_singleton.
Qed.

Lemma buildJobArgs_ExtraArgs rt o :
  JobOptions.ExtraArgs o `suffix_of` buildJobArgs rt o.
Proof. unfold buildJobArgs. cbv zeta. apply suffix_app_r. done. Qed.

Lemma occurs_in_suffix {A} (sub l l' : list A) :
  occurs_in sub l -> l `suffix_of` l' -> occurs_in sub l'.
Proof.
  intros (pre & post & ->) [k ->]. exists (k ++ pre), post.
  by rewrite <- app_assoc.
Qed.

Lemma applyDefaults_ExtraArgs cfg o :
  JobOptions.ExtraArgs (applyDefaults cfg o) = JobOptions.ExtraArgs o.
Proof. by destruct o. Qed.

Lemma applyDefaults_Nodes cfg o :
  JobOptions.Nodes (applyDefaults cfg o) =
  if (JobOptions.Nodes o =? 0)%Z && (Config.DefaultNodes cfg >? 0)%Z
  then Config.DefaultNodes cfg else JobOptions.Nodes o.
Proof. by destruct o. Qed.

(** With one value for every spelling of the node count that is
    present, and that value a positive number, [Nodes] is that number
    as soon as one spelling is present. *)
Lemma foldl_Nodes_same v order : forall jo,
  (forall k' v', (k', v') ∈ order -> k' ∈ nodes_keys -> v' = v) ->
  (parseInt v > 0)%Z ->
  JobOptions.Nodes (foldl (jobOptions_step IsDigit) jo order) =
  if bool_decide (Exists (fun kv => kv.1 ∈ nodes_keys) order)
  then parseInt v else JobOptions.Nodes jo.
Proof.
  induction order as [|[k w] order IH]; intros jo Hall Hv.
  - cbn [foldl]. by rewrite bool_decide_eq_false_2 by (by intros ?%Exists_nil).
  - cbn [foldl]. rewrite IH; [|intros k' v' Hin; apply Hall; by right|done].
    rewrite step_Nodes. cbn [fst snd].
    destruct (bool_decide (Exists (fun kv => kv.1 ∈ nodes_keys) order)) eqn:E.
    + apply bool_decide_eq_true in E.
      by rewrite bool_decide_eq_true_2 by (by apply Exists_cons_tl).
    + apply bool_decide_eq_false in E.
      destruct (bool_decide (k ∈ nodes_keys)) eqn:Ek.
      * apply bool_decide_eq_true in Ek.
        assert (w = v) as -> by (apply (Hall k); [by left | done]).
        rewrite bool_decide_eq_true_2 by (by apply Exists_cons_hd).
        unfold parseInt in *. simpl.
        by assert ((parseInt_with IsDigit v >? 0)%Z = true) as -> by lia.
      * apply bool_decide_eq_false in Ek. simpl.
        rewrite bool_decide_eq_false_2; [done|].
        by intros [?|?]%Exists_cons.
Qed.

(** X19: what [run] gives to [srun] for the node count.  When every
    spelling of the option that is present has a value that is not a
    positive number, the default of the configuration is used when it
    is positive, and there is no [--nodes] argument otherwise; and
    [-N] with the digits of a positive number, without [--nodes], gives
    the argument [--nodes=] with the same digits. *)
Theorem X19_run_node_count rt cfg options order :
  enumerates order options ->
  ((forall k v, k ∈ nodes_keys -> options !! k = Some v -> not_a_positive_count v) ->
   JobOptions.Nodes (applyDefaults cfg (parseJobOptions order)) =
   (if (Config.DefaultNodes cfg >? 0)%Z then Config.DefaultNodes cfg else 0%Z))
  /\ (forall n,
        (0 < n)%Z -> in_int64 n ->
        options !! "-N" = Some (FormatInt n) ->
        options !! "--nodes" = None ->
        JobOptions.Nodes (applyDefaults cfg (parseJobOptions order)) = n
        /\ ("--nodes=" +:+ FormatInt n)
             ∈ buildJobArgs rt (applyDefaults cfg (parseJobOptions order))).
Proof.
  intros He. split.
  - intros Hall. rewrite applyDefaults_Nodes.
    assert (JobOptions.Nodes (parseJobOptions order) = 0%Z) as ->.
    { unfold parseJobOptions, parseJobOptions_in.
      apply foldl_Nodes_zero; [done|].
      intros k v Hin Hk. apply not_a_positive_count_parseInt.
      apply (Hall k v Hk). by apply (enumerates_lookup _ _ _ _ He). }
    done.
  - intros n Hpos Hn HN Hnodes.
    assert (parseInt (FormatInt n) = n) as Hp
      by (rewrite parseInt_FormatInt by done; lia).
    assert (JobOptions.Nodes (parseJobOptions order) = n) as Hnod.
    { unfold parseJobOptions, parseJobOptions_in.
      rewrite (foldl_Nodes_same (FormatInt n)).
      - rewrite bool_decide_eq_true_2; [done|].
        apply Exists_exists. exists ("-N", FormatInt n).
        split; [by apply (enumerates_lookup _ _ _ _ He)|].
        cbn [fst]. unfold nodes_keys. by left.
      - intros k' v' Hin Hk.
        apply (enumerates_lookup _ _ _ _ He) in Hin.
        unfold nodes_keys in Hk.
        apply elem_of_cons in Hk as [->|Hk]; [congruence|].
        apply list_elem_of_singleton in Hk as ->. congruence.
      - lia. }
    assert (JobOptions.Nodes (applyDefaults cfg (parseJobOptions order)) = n) as Hnod'.
    { rewrite applyDefaults_Nodes, Hnod.
      by assert ((n =? 0)%Z = false) as -> by lia. }
    split; [done|].
    rewrite <- Hnod' at 1. apply buildJobArgs_nodes. lia.
Qed.

Lemma X19_run_node_count_witness :
  JobOptions.Nodes (applyDefaults (Config.Default "/home/u/slurm_jobs")
                      (parseJobOptions (map_to_list options_invalid_count))) = 1%Z
  /\ ("--nodes=" +:+ FormatInt 2)
       ∈ buildJobArgs rt_children_fail
           (applyDefaults (Config.Default "/home/u/slurm_jobs")
              (parseJobOptions (map_to_list (Options example_run_N)))).
Proof.
  split.
  - apply (proj1 (X19_run_node_count rt_children_fail
                    (Config.Default "/home/u/slurm_jobs") options_invalid_count
                    (map_to_list options_invalid_count)
                    (enumerates_map_to_list _))).
    intros k v Hk Hv. unfold nodes_keys in Hk.
    apply elem_of_cons in Hk as [->|Hk].
    + injection Hv as <-. by left.
    + apply list_elem_of_singleton in Hk as ->. discriminate.
  - apply (proj2 (X19_run_node_count rt_children_fail
                    (Config.Default "/home/u/slurm_jobs") (Options example_run_N)
                    (map_to_list (Options example_run_N))
                    (enumerates_map_to_list _)) 2%Z).
    + lia.
    + by apply in_int64_check.
    + reflexivity.
    + reflexivity.
Defined.

Lemma Join_not_empty ts sep :
  ts <> [] -> Forall (fun t => t <> EmptyString) ts -> Join ts sep <> EmptyString.
Proof.
  intros Hne Hall. destruct ts as [|t ts]; [done|].
  apply Forall_cons in Hall as [Ht _].
  destruct ts as [|t2 ts]; cbn [Join]; [done|].
  destruct t; [done|]. by rewrite append_cons.
Qed.

(** X20: the child that [run] starts.  For a parsed command with an
    argument at least, [RunJob] with the options after the defaults
    runs one child, [srun], with its output captured and the timeout
    of the client; the last argument of [srun] is the positional
    arguments of the command joined into one string; before it come the
    arguments built from the job options, which end with the extra
    arguments, and among these is every option that the projection
    does not recognize, followed by its value when that is not empty. *)
Theorem X20_run_child rt c cfg line cmd :
  ParseCommand line = Ok cmd ->
  Args cmd <> [] ->
  enumerates (range_map rt (Options cmd)) (Options cmd) ->
  let jobOpts := applyDefaults cfg (parseJobOptions (range_map rt (Options cmd))) in
  snd (RunJob rt c (Join (Args cmd) " ") (Some jobOpts)) =
    [EvRun (Captured (timeout c)) "srun"
       (buildJobArgs rt jobOpts ++ [Join (Args cmd) " "])]
  /\ JobOptions.ExtraArgs jobOpts `suffix_of` buildJobArgs rt jobOpts
  /\ (forall k v,
        k ∉ recognized_options -> Options cmd !! k = Some v ->
        occurs_in (if is_empty v then [k] else [k; v]) (buildJobArgs rt jobOpts)).
Proof.
  intros Hp Hargs He jobOpts.
  assert (Join (Args cmd) " " <> EmptyString) as Hj.
  { apply Join_not_empty; [done|].
    apply ParseCommand_Ok_inv in Hp as (name & rest & Htok & ->). cbn [Args].
    apply tokenize_not_empty in Htok. apply Forall_cons in Htok as [_ Hrest].
    destruct (classify_items rest Hrest) as [Hits _].
    apply Forall_forall. intros a Ha. unfold spec_args in Ha.
    apply list_elem_of_omap in Ha as (it & Hit & Hv).
    destruct it as [k v|a']; [done|]. injection Hv as ->.
    rewrite Forall_forall in Hits. by destruct (Hits _ Hit). }
  split; [|split].
  - unfold RunJob, Client_Execute. cbv zeta. cbn [snd].
    apply is_empty_false in Hj. by rewrite Hj.
  - apply buildJobArgs_ExtraArgs.
  - intros k v Hk Hkv.
    apply (occurs_in_suffix _ (JobOptions.ExtraArgs jobOpts));
      [|apply buildJobArgs_ExtraArgs].
    unfold jobOpts. rewrite applyDefaults_ExtraArgs.
    unfold parseJobOptions, parseJobOptions_in.
    rewrite foldl_ExtraArgs. simpl.
    replace (if is_empty v then [k] else [k; v]) with (extra_of (k, v)).
    + apply occurs_in_concat_map. by apply (enumerates_lookup _ _ _ _ He).
    + unfold extra_of. cbn [fst snd].
      rewrite bool_decide_eq_false_2 by done. by destruct (is_empty v).
Qed.

Lemma X20_run_child_witness :
  snd (RunJob rt_children_fail NewClient "echo hello"
         (Some (applyDefaults (Config.Default "/home/u/slurm_jobs")
                  (parseJobOptions (map_to_list {[ "--gres" := "gpu:1" ]}))))) =
  [EvRun (Captured (30 * second)) "srun"
     ["--nodes=1"; "--cpus-per-task=1"; "--time=01:00:00"; "--gres"; "gpu:1";
      "echo hello"]].
Proof.
  destruct (X20_run_child rt_children_fail NewClient
              (Config.Default "/home/u/slurm_jobs")
              "run --gres gpu:1 echo hello"
              (MkCommand "run" ["echo"; "hello"] {[ "--gres" := "gpu:1" ]}))
    as (H & _).
  - reflexivity.
  - discriminate.
  - apply enumerates_map_to_list.
  - exact H.
Defined.

(** ** The configuration *)

Lemma Validate_time_clause t :
  negb (is_empty t) && negb (Config.isValidTimeFormat t) = false.
Proof. by destruct t. Qed.

Lemma Validate_Ok_iff c :
  Config.Validate c = Ok tt <->
  (0 <= Config.HistorySize c)%Z /\ (1 <= Config.CommandTimeout c)%Z.
Proof.
  unfold Config.Validate. rewrite Validate_time_clause.
  destruct (Config.HistorySize c <? 0)%Z eqn:E1;
    [apply Z.ltb_lt in E1 | apply Z.ltb_ge in E1];
    (destruct (Config.CommandTimeout c <? 1)%Z eqn:E2;
     [apply Z.ltb_lt in E2 | apply Z.ltb_ge in E2]);
    split; try done; intros [? ?]; lia.
Qed.



(** X22: [Validate] accepts the default configuration, never reports
    an invalid default time (its time check accepts every string that
    is not empty, and so every time that the validation of a command
    accepts for [-t]), and still accepts a configuration after
    [UpdateDefaults], whatever the new defaults are. *)
Theorem X22_config_validity :
  (forall outputDir, Config.Validate (Config.Default outputDir) = Ok tt)
  /\ (forall c t, Config.Validate c <> Err (Config.InvalidDefaultTime t))
  /\ (forall t, isValidTimeFormat t = true -> Config.isValidTimeFormat t = true)
  /\ (forall c partition nodes cpus memory time,
        Config.Validate c = Ok tt ->
        Config.Validate
          (Config.UpdateDefaults c partition nodes cpus memory time) = Ok tt).
Proof.
  split; [done|]. split; [|split].
  - intros c t. unfold Config.Validate. rewrite Validate_time_clause.
    destruct (_ <? _)%Z; [done|]. by destruct (_ <? _)%Z.
  - intros t Ht. apply isValidTimeFormat_shape in Ht.
    unfold Config.isValidTimeFormat. apply bool_decide_eq_true.
    apply String_length_pos.
    destruct Ht as [Hc|(_ & Hne & _)]; [|done].
    intros ->. simpl in Hc. lia.
  - intros c partition nodes cpus memory time. rewrite !Validate_Ok_iff. done.
Qed.

Lemma X22_config_validity_witness :
  isValidTimeFormat "30:00" = true
  /\ Config.isValidTimeFormat "30:00" = true
  /\ Config.Validate
       (Config.UpdateDefaults (Config.Default "/home/u/slurm_jobs")
          "gpu" 2 0 EmptyString "soon") = Ok tt.
Proof.
  destruct X22_config_validity as (_ & _ & H3 & H4).
  split; [reflexivity|]. split.
  - apply H3. reflexivity.
  - apply H4. reflexivity.
Defined.

(** ** Formatting: colour codes *)








(** ** Aliases *)













(** ** The command [submit] *)

(** X26: [submit] without an argument returns its usage line and runs
    nothing.  With an argument it runs one child, [sbatch], with its
    output captured and the timeout of the client; the last argument of
    [sbatch] is the first argument of the command, the arguments before
    it are built from the options as they are, without the defaults of
    the configuration, and the other arguments of the command are not
    used; the error of the client is returned when the child fails,
    and nothing is printed then. *)
Theorem X26_submit rt c cmd :
  (Args cmd = [] ->
   SubmitCommand_Execute rt c cmd = (Some (UsageError "usage: submit <script>"), []))
  /\ (forall script rest,
        Args cmd = script :: rest ->
        let jobOpts := parseJobOptions (range_map rt (Options cmd)) in
        let argv := buildJobArgs rt jobOpts ++ [script] in
        let r := run_child rt (Captured (timeout c)) "sbatch" argv in
        exists printed,
          SubmitCommand_Execute rt c cmd =
            (ClientError "failed to submit job" <$> cmd_Run r,
             EvRun (Captured (timeout c)) "sbatch" argv :: printed)
          /\ (cmd_Run r <> None -> printed = [])
          /\ (cmd_Run r = None ->
              printed = if is_empty (child_stdout r) then []
                        else [EvPrint (child_stdout r)])
          /\ ((forall m, enumerates (range_map rt m) m) ->
              Options cmd = ∅ -> argv = [script])).
Proof.
  split.
  - intros Ha. unfold SubmitCommand_Execute. by rewrite Ha.
  - intros script rest Ha. cbv zeta.
    assert ((forall m, enumerates (range_map rt m) m) -> Options cmd = ∅ ->
            buildJobArgs rt (parseJobOptions (range_map rt (Options cmd))) ++ [script]
            = [script]) as Hnone.
    { intros He ->. pose proof (He ∅) as H0. unfold enumerates in H0.
      rewrite map_to_list_empty in H0. apply Permutation_nil_r in H0.
      rewrite H0. unfold buildJobArgs. cbv zeta.
      cbn [parseJobOptions parseJobOptions_in foldl jobOptions_zero
           JobOptions.Name JobOptions.Partition JobOptions.Nodes JobOptions.CPUs
           JobOptions.Memory JobOptions.TimeLimit JobOptions.QoS
           JobOptions.Account JobOptions.Output JobOptions.Error
           JobOptions.WorkDir JobOptions.Environment JobOptions.ExtraArgs
           is_empty negb].
      rewrite H0. reflexivity. }
    unfold SubmitCommand_Execute, SubmitJob, Client_Execute. rewrite Ha.
    cbv zeta. cbn [app].
    destruct (cmd_Run _) as [e|] eqn:Hr.
    + exists []. repeat split; done.
    + eexists. split; [reflexivity|]. cbn [Output].
      split; [done|]. split; [intros _; by destruct (is_empty _)|]. done.
Qed.

Lemma X26_submit_witness :
  SubmitCommand_Execute rt_children_fail NewClient
    (MkCommand "submit" ["job.sh"; "extra"] {[ "-N" := "2" ]}) =
  (Some (ClientError "failed to submit job" (ExitError 1)),
   [EvRun (Captured (30 * second)) "sbatch" ["--nodes=2"; "job.sh"]]).
Proof.
  destruct (proj2 (X26_submit rt_children_fail NewClient
                     (MkCommand "submit" ["job.sh"; "extra"] {[ "-N" := "2" ]}))
              "job.sh" ["extra"] eq_refl) as (printed & H & Hf & _).
  rewrite H. rewrite (Hf ltac:(discriminate)). reflexivity.
Defined.

(** ** More of the history file and of the shell *)

Lemma keep_last_drop max (es : list HistoryEntry) :
  (0 <= max)%Z ->
  keep_last max es = Some (drop (length es - Z.to_nat max) es).
Proof.
  intros Hmax. unfold keep_last.
  destruct (decide (Z.of_nat (length es) > max)%Z) as [Hgt|Hle].
  - rewrite slice_from_Some by lia. do 2 f_equal. lia.
  - replace (length es - Z.to_nat max)%nat with 0%nat by lia. done.
Qed.

(** X27: [Load] of a file that [Save] wrote keeps the newest entries
    when the file holds more than the maximum size: the oldest entries
    are dropped, the others come back in order, with their timestamps
    cut to the second. *)
Theorem X27_Load_keeps_newest homeDir max h :
  (0 <= max)%Z ->
  Forall fits_a_line (entries h) ->
  Forall entry_wf (entries h) ->
  Load (NewHistory homeDir max) (Some (Save h)) =
  Some (MkHistory
          (at_second <$> drop (length (entries h) - Z.to_nat max) (entries h))
          max (homeDir +:+ "/.slsh_history"),
        None).
Proof.
  intros Hmax Hfit Hwf. unfold Load, Save.
  rewrite scan_lines_Save_lines by done.
  unfold decode_lines. rewrite decode_entry_texts by done.
  cbn [maxSize filePath NewHistory app].
  rewrite keep_last_drop by done. cbn [mbind option_bind].
  by rewrite length_fmap, fmap_drop.
Qed.

Lemma session_history_wf :
  Forall fits_a_line (entries session_history)
  /\ Forall entry_wf (entries session_history).
Proof.
  split.
  - repeat (apply Forall_cons; split; [split; [reflexivity | by vm_compute]|]).
    apply Forall_nil. done.
  - repeat (apply Forall_cons;
            split; [split; [reflexivity | split; by apply in_int64_check]|]).
    apply Forall_nil. done.
Qed.

Lemma X27_Load_keeps_newest_witness :
  Load (NewHistory "/home/u" 1) (Some (Save session_history)) =
  Some (MkHistory [MkEntry "scancel 42" 1700000004000000000 false 900] 1
          "/home/u/.slsh_history", None).
Proof.
  destruct session_history_wf as [Hfit Hwf].
  apply (X27_Load_keeps_newest "/home/u" 1 session_history); [lia | done | done].
Defined.

(** *** Every line is recorded *)




(** *** Quoted text *)




(** *** Lines of the history file that are not entries *)

Lemma Cut_count s sep before after :
  Cut s sep = (before, Some after) ->
  count_char sep s = S (count_char sep after).
Proof.
  revert before. induction s as [|c s IH]; intros before; simpl; [done|].
  destruct (Ascii.eqb c sep) eqn:E.
  - by intros [= <- <-].
  - destruct (Cut s sep) as [b a] eqn:Hcut. intros [= <- ->].
    simpl. by apply (IH b).
Qed.

Lemma SplitN_length n : forall s sep,
  (length (SplitN s sep n) <= S (count_char sep s))%nat.
Proof.
  induction n as [|n IH]; intros s sep; [simpl; lia|].
  destruct n as [|n]; [simpl; lia|].
  change (SplitN s sep (S (S n)))
    with (match Cut s sep with
          | (before, Some after) => before :: SplitN after sep (S n)
          | (before, None) => [before]
          end).
  destruct (Cut s sep) as [before [after|]] eqn:Hcut; [|simpl; lia].
  rewrite (Cut_count _ _ _ _ Hcut). cbn [length].
  specialize (IH after sep). lia.
Qed.

Lemma parseHistoryLine_few_fields line :
  (count_char pipe line < 3)%nat -> parseHistoryLine line = None.
Proof.
  intros Hc. unfold parseHistoryLine.
  pose proof (SplitN_length 4 line pipe) as Hl.
  destruct (SplitN line pipe 4) as [|p0 [|p1 [|p2 [|p3 [|p4 l]]]]]; try done.
  simpl in Hl. lia.
Qed.

Lemma decode_lines_app a b :
  decode_lines (a ++ b) = decode_lines a ++ decode_lines b.
Proof.
  unfold decode_lines. rewrite foldl_app.
  generalize (foldl load_line [] a). intros acc.
  induction b as [|t b IH] using rev_ind; [by rewrite app_nil_r|].
  rewrite !foldl_snoc, IH. unfold load_line. cbv zeta.
  destruct (is_empty (TrimSpace t)); [done|].
  destruct (parseHistoryLine (TrimSpace t)); [|done].
  by rewrite app_assoc.
Qed.

(** X30: [Load] reads the lines of the file one by one: a line that is
    blank, or that has fewer than three [|] once it is trimmed, is
    skipped without an error and changes nothing of what the lines
    before it and after it give. *)
Theorem X30_Load_skips_malformed before bad after :
  (TrimSpace bad = EmptyString \/ (count_char pipe (TrimSpace bad) < 3)%nat) ->
  decode_lines (before ++ bad :: after) = decode_lines before ++ decode_lines after
  /\ decode_lines (before ++ bad :: after) = decode_lines (before ++ after).
Proof.
  intros Hbad.
  assert (decode_lines [bad] = []) as Hb.
  { unfold decode_lines. cbn [foldl]. unfold load_line. cbv zeta.
    destruct Hbad as [->|Hc]; [done|].
    destruct (is_empty (TrimSpace bad)); [done|].
    by rewrite parseHistoryLine_few_fields. }
  rewrite (decode_lines_app before after).
  change (bad :: after) with ([bad] ++ after).
  by rewrite !decode_lines_app, Hb.
Qed.

Lemma X30_Load_skips_malformed_witness :
  Load (NewHistory "/home/u" 10)
    (Some ("1700000000|true|5|sinfo" +:+ String newline
           ("# not an entry|x" +:+ String newline
            ("1700000001|false|7|squeue" +:+ String newline EmptyString)))) =
  Some (MkHistory [MkEntry "sinfo" 1700000000000000000 true 5;
                   MkEntry "squeue" 1700000001000000000 false 7] 10
          "/home/u/.slsh_history", None)
  /\ decode_lines ["1700000000|true|5|sinfo"; "# not an entry|x";
                   "1700000001|false|7|squeue"] =
     decode_lines ["1700000000|true|5|sinfo"; "1700000001|false|7|squeue"].
Proof.
  split; [reflexivity|].
  destruct (X30_Load_skips_malformed ["1700000000|true|5|sinfo"]
              "# not an entry|x" ["1700000001|false|7|squeue"]) as [_ H].
  - right. vm_compute. lia.
  - exact H.
Defined.
